(** * The gallery client of gauravphotoviewer ([static/js/main.js])

    A shallow embedding of the object returned by [galleryApp()]: the image
    list, its pagination, search filter, month grouping, lightbox navigation,
    photo selection, slideshow and auto-refresh, followed by the properties
    the specification states about them.

    Conventions.
    - A JavaScript string is the list of its UTF-16 code units.
    - A JavaScript number that the code only ever uses as an integer
      (indices, page numbers, counts, epoch milliseconds) is a [Z].
    - What the browser provides and the source does not define (Unicode case
      mapping, the [Date] parser, locale-dependent date formatting) is a
      parameter of the model, the record [Host].
    - [console.log] and [console.error] write to the developer console only;
      the console is not part of the modelled state. *)

From Stdlib Require Import ZArith List Lia QArith Qround Sorted Permutation.
From Stdlib Require Import Ascii String DecimalString.
From stdpp Require Import gmap list.

Local Open Scope Z_scope.

(** ** JavaScript values used by the client *)

Abbreviation jsstring := (list N).

(** ASCII literals as code-unit lists. *)
Fixpoint str (s : string) : jsstring :=
  match s with
  | EmptyString => []
  | String c s' => N_of_ascii c :: str s'
  end.

(** [String(n)] for an integer [n]. *)
Definition decimal (n : Z) : jsstring :=
  str (NilZero.string_of_int (Z.to_int n)).

(** The JSON values a record field can hold. *)
Inductive jsval : Type :=
| JUndefined
| JNull
| JNum (n : Z)
| JStr (s : jsstring).

#[global] Instance jsval_eq_dec : EqDecision jsval.
Proof. solve_decision. Defined.

(** [s1 === s2] on these values is structural equality. *)
Definition strictEq (a b : jsval) : bool := bool_decide (a = b).

(** [!v]: the falsy values are [undefined], [null], [0] and the empty string. *)
Definition falsy (v : jsval) : bool :=
  match v with
  | JUndefined | JNull => true
  | JNum n => n =? 0
  | JStr s => match s with [] => true | _ => false end
  end.

Definition truthyStr (s : jsstring) : bool :=
  match s with [] => false | _ => true end.

(** ECMAScript [WhiteSpace] and [LineTerminator] code units, as
    [String.prototype.trim] strips them. *)
Definition isWhiteSpace (c : N) : bool :=
  ((9 <=? c) && (c <=? 13) || (c =? 32) || (c =? 160) || (c =? 5760)
   || (8192 <=? c) && (c <=? 8202) || (c =? 8232) || (c =? 8233)
   || (c =? 8239) || (c =? 8287) || (c =? 12288) || (c =? 65279))%N.

Fixpoint trimStart (s : jsstring) : jsstring :=
  match s with
  | c :: s' => if isWhiteSpace c then trimStart s' else s
  | [] => []
  end.

Definition trim (s : jsstring) : jsstring :=
  rev (trimStart (rev (trimStart s))).

Fixpoint startsWith (s sub : jsstring) : bool :=
  match sub, s with
  | [], _ => true
  | _ :: _, [] => false
  | c :: sub', d :: s' => (c =? d)%N && startsWith s' sub'
  end.

(** [s.includes(sub)]. *)
Fixpoint includes (s sub : jsstring) : bool :=
  startsWith s sub ||
  match s with
  | [] => false
  | _ :: s' => includes s' sub
  end.

(** [Math.ceil(a / b)] on integers: the quotient is taken in the rationals.
    An array length is below 2^32, so the double that JavaScript computes for
    [a / 24] has the same ceiling as the exact quotient. *)
Definition Math_ceil_div (a b : Z) : Z :=
  Qceiling (inject_Z a / inject_Z b).

(** [arr.slice(start, end)] with JavaScript's treatment of negative and
    out-of-range bounds. *)
Definition relativeIndex (len k : Z) : Z :=
  if k <? 0 then Z.max (len + k) 0 else Z.min k len.

Definition slice {A : Type} (l : list A) (start end_ : Z) : list A :=
  let len := Z.of_nat (length l) in
  let k := relativeIndex len start in
  let final := relativeIndex len end_ in
  take (Z.to_nat (final - k)) (drop (Z.to_nat k) l).

(** [arr[i]] for a number [i]: [None] is [undefined]. *)
Definition index {A : Type} (l : list A) (i : Z) : option A :=
  if i <? 0 then None else l !! Z.to_nat i.

(** [arr.findIndex(p)]: the first index whose element satisfies [p], or -1. *)
Fixpoint findIndexFrom {A : Type} (p : A -> bool) (l : list A) (i : Z) : Z :=
  match l with
  | [] => -1
  | x :: l' => if p x then i else findIndexFrom p l' (i + 1)
  end.

Definition findIndex {A : Type} (p : A -> bool) (l : list A) : Z :=
  findIndexFrom p l 0.

(** [arr.splice(i, 1)] for an index [0 <= i]. *)
Definition splice1 {A : Type} (l : list A) (i : Z) : list A :=
  take (Z.to_nat i) l ++ drop (S (Z.to_nat i)) l.

(** ** Dates and the host *)

(** A [Date] object: its time value in epoch milliseconds, [None] for an
    Invalid Date (time value NaN). *)
Abbreviation jsdate := (option Z).

(** The browser functions the client calls. The two laws hold of every
    ECMAScript implementation: lower-casing maps the empty string, and only
    the empty string, to the empty string. *)
Record Host : Type := {
  toLowerCase : jsstring -> jsstring;
  newDate : jsval -> jsdate;                    (* new Date(v) *)
  toLocaleDateString : jsdate -> jsstring;      (* d.toLocaleDateString() *)
  monthYearString : jsdate -> jsstring;
    (* d.toLocaleDateString('en-US', {year: 'numeric', month: 'long'}) *)
  monthLongString : jsdate -> jsstring;
    (* d.toLocaleDateString('en-US', {month: 'long'}) *)
  getFullYear : jsdate -> option Z;             (* None is NaN *)
  toLowerCase_nil : toLowerCase [] = [];
  toLowerCase_nonempty : forall s, toLowerCase s = [] -> s = []
}.

(** ** Records and application state *)

(** An ImageRecord as the read API delivers it. *)
Record Image : Type := {
  img_id : jsval;
  full_url : jsstring;
  thumbnail_url : option jsstring;
  caption : option jsstring;
  timestamp : jsval
}.

#[global] Instance Image_eq_dec : EqDecision Image.
Proof. solve_decision. Defined.

(** The values [currentImage] takes: the initial [{}], [undefined] (an
    out-of-range [images[i]]) or a record. *)
Inductive imageRef : Type :=
| EmptyObject
| Undefined
| Rec (image : Image).

#[global] Instance imageRef_eq_dec : EqDecision imageRef.
Proof. solve_decision. Defined.

Definition imageAt (l : list Image) (i : Z) : imageRef :=
  match index l i with
  | Some image => Rec image
  | None => Undefined
  end.

(** One entry of [groupedImages]. *)
Record MonthGroup : Type := {
  photos : list Image;
  count : Z;
  monthName : jsstring;
  year : option Z;
  sortDate : jsdate
}.

Inductive ViewMode : Type := Grouped | Grid.

Inductive NotificationType : Type := NSuccess | NError | NInfo.

(** The messages the modelled functions pass to [showNotification]. *)
Inductive Message : Type :=
| MsgNewPhotos (newCount : Z)
| MsgSlideshowStarted
| MsgSlideshowStopped
| MsgGalleryRefreshed.

Record Notification : Type := {
  message : Message;
  msgType : NotificationType
}.

Inductive Overflow : Type := OverflowAuto | OverflowHidden.

(** The callbacks the client hands to [setInterval]. *)
Inductive TimerCallback : Type := SlideshowTimer | AutoRefreshTimer.

#[global] Instance TimerCallback_eq_dec : EqDecision TimerCallback.
Proof. solve_decision. Defined.

(** The reactive object returned by [galleryApp()], together with the parts of
    the page its methods write: the notifications appended to the document
    body (in order of appearance), the body's overflow style, and the interval
    timers that are running. *)
Record App : Type := {
  loading : bool;
  images : list Image;
  displayedImages : list Image;
  groupedImages : gmap (list N) MonthGroup;
  lightboxOpen : bool;
  currentImage : imageRef;
  currentIndex : Z;
  currentPage : Z;
  totalPages : Z;
  searchQuery : jsstring;
  selectedPhotos : list Image;
  selectionMode : bool;
  slideshowActive : bool;
  slideshowInterval : option nat;
  viewMode : ViewMode;
  notifications : list Notification;
  bodyOverflow : Overflow;
  activeIntervals : list (nat * TimerCallback);
  nextTimerId : nat
}.

(** [photosPerPage: 24]; no method assigns it. *)
Definition photosPerPage : Z := 24.

(** The object as [galleryApp()] returns it, in a fresh page. *)
Definition initialApp : App := {|
  loading := true;
  images := [];
  displayedImages := [];
  groupedImages := ∅;
  lightboxOpen := false;
  currentImage := EmptyObject;
  currentIndex := 0;
  currentPage := 1;
  totalPages := 1;
  searchQuery := [];
  selectedPhotos := [];
  selectionMode := false;
  slideshowActive := false;
  slideshowInterval := None;
  viewMode := Grouped;
  notifications := [];
  bodyOverflow := OverflowAuto;
  activeIntervals := [];
  nextTimerId := 1
|}.

(** Assignments [this.f = v], one per field. *)

Definition set_loading (v : bool) (st : App) : App :=
  {| loading := v; images := images st;
     displayedImages := displayedImages st;
     groupedImages := groupedImages st; lightboxOpen := lightboxOpen st;
     currentImage := currentImage st; currentIndex := currentIndex st;
     currentPage := currentPage st; totalPages := totalPages st;
     searchQuery := searchQuery st; selectedPhotos := selectedPhotos st;
     selectionMode := selectionMode st;
     slideshowActive := slideshowActive st;
     slideshowInterval := slideshowInterval st; viewMode := viewMode st;
     notifications := notifications st; bodyOverflow := bodyOverflow st;
     activeIntervals := activeIntervals st; nextTimerId := nextTimerId st |}.

Definition set_images (v : list Image) (st : App) : App :=
  {| loading := loading st; images := v;
     displayedImages := displayedImages st;
     groupedImages := groupedImages st; lightboxOpen := lightboxOpen st;
     currentImage := currentImage st; currentIndex := currentIndex st;
     currentPage := currentPage st; totalPages := totalPages st;
     searchQuery := searchQuery st; selectedPhotos := selectedPhotos st;
     selectionMode := selectionMode st;
     slideshowActive := slideshowActive st;
     slideshowInterval := slideshowInterval st; viewMode := viewMode st;
     notifications := notifications st; bodyOverflow := bodyOverflow st;
     activeIntervals := activeIntervals st; nextTimerId := nextTimerId st |}.

Definition set_displayedImages (v : list Image) (st : App) : App :=
  {| loading := loading st; images := images st; displayedImages := v;
     groupedImages := groupedImages st; lightboxOpen := lightboxOpen st;
     currentImage := currentImage st; currentIndex := currentIndex st;
     currentPage := currentPage st; totalPages := totalPages st;
     searchQuery := searchQuery st; selectedPhotos := selectedPhotos st;
     selectionMode := selectionMode st;
     slideshowActive := slideshowActive st;
     slideshowInterval := slideshowInterval st; viewMode := viewMode st;
     notifications := notifications st; bodyOverflow := bodyOverflow st;
     activeIntervals := activeIntervals st; nextTimerId := nextTimerId st |}.

Definition set_groupedImages (v : gmap (list N) MonthGroup) (st : App) : App :=
  {| loading := loading st; images := images st;
     displayedImages := displayedImages st; groupedImages := v;
     lightboxOpen := lightboxOpen st; currentImage := currentImage st;
     currentIndex := currentIndex st; currentPage := currentPage st;
     totalPages := totalPages st; searchQuery := searchQuery st;
     selectedPhotos := selectedPhotos st; selectionMode := selectionMode st;
     slideshowActive := slideshowActive st;
     slideshowInterval := slideshowInterval st; viewMode := viewMode st;
     notifications := notifications st; bodyOverflow := bodyOverflow st;
     activeIntervals := activeIntervals st; nextTimerId := nextTimerId st |}.

Definition set_lightboxOpen (v : bool) (st : App) : App :=
  {| loading := loading st; images := images st;
     displayedImages := displayedImages st;
     groupedImages := groupedImages st; lightboxOpen := v;
     currentImage := currentImage st; currentIndex := currentIndex st;
     currentPage := currentPage st; totalPages := totalPages st;
     searchQuery := searchQuery st; selectedPhotos := selectedPhotos st;
     selectionMode := selectionMode st;
     slideshowActive := slideshowActive st;
     slideshowInterval := slideshowInterval st; viewMode := viewMode st;
     notifications := notifications st; bodyOverflow := bodyOverflow st;
     activeIntervals := activeIntervals st; nextTimerId := nextTimerId st |}.

Definition set_currentImage (v : imageRef) (st : App) : App :=
  {| loading := loading st; images := images st;
     displayedImages := displayedImages st;
     groupedImages := groupedImages st; lightboxOpen := lightboxOpen st;
     currentImage := v; currentIndex := currentIndex st;
     currentPage := currentPage st; totalPages := totalPages st;
     searchQuery := searchQuery st; selectedPhotos := selectedPhotos st;
     selectionMode := selectionMode st;
     slideshowActive := slideshowActive st;
     slideshowInterval := slideshowInterval st; viewMode := viewMode st;
     notifications := notifications st; bodyOverflow := bodyOverflow st;
     activeIntervals := activeIntervals st; nextTimerId := nextTimerId st |}.

Definition set_currentIndex (v : Z) (st : App) : App :=
  {| loading := loading st; images := images st;
     displayedImages := displayedImages st;
     groupedImages := groupedImages st; lightboxOpen := lightboxOpen st;
     currentImage := currentImage st; currentIndex := v;
     currentPage := currentPage st; totalPages := totalPages st;
     searchQuery := searchQuery st; selectedPhotos := selectedPhotos st;
     selectionMode := selectionMode st;
     slideshowActive := slideshowActive st;
     slideshowInterval := slideshowInterval st; viewMode := viewMode st;
     notifications := notifications st; bodyOverflow := bodyOverflow st;
     activeIntervals := activeIntervals st; nextTimerId := nextTimerId st |}.

Definition set_currentPage (v : Z) (st : App) : App :=
  {| loading := loading st; images := images st;
     displayedImages := displayedImages st;
     groupedImages := groupedImages st; lightboxOpen := lightboxOpen st;
     currentImage := currentImage st; currentIndex := currentIndex st;
     currentPage := v; totalPages := totalPages st;
     searchQuery := searchQuery st; selectedPhotos := selectedPhotos st;
     selectionMode := selectionMode st;
     slideshowActive := slideshowActive st;
     slideshowInterval := slideshowInterval st; viewMode := viewMode st;
     notifications := notifications st; bodyOverflow := bodyOverflow st;
     activeIntervals := activeIntervals st; nextTimerId := nextTimerId st |}.

Definition set_totalPages (v : Z) (st : App) : App :=
  {| loading := loading st; images := images st;
     displayedImages := displayedImages st;
     groupedImages := groupedImages st; lightboxOpen := lightboxOpen st;
     currentImage := currentImage st; currentIndex := currentIndex st;
     currentPage := currentPage st; totalPages := v;
     searchQuery := searchQuery st; selectedPhotos := selectedPhotos st;
     selectionMode := selectionMode st;
     slideshowActive := slideshowActive st;
     slideshowInterval := slideshowInterval st; viewMode := viewMode st;
     notifications := notifications st; bodyOverflow := bodyOverflow st;
     activeIntervals := activeIntervals st; nextTimerId := nextTimerId st |}.

Definition set_searchQuery (v : jsstring) (st : App) : App :=
  {| loading := loading st; images := images st;
     displayedImages := displayedImages st;
     groupedImages := groupedImages st; lightboxOpen := lightboxOpen st;
     currentImage := currentImage st; currentIndex := currentIndex st;
     currentPage := currentPage st; totalPages := totalPages st;
     searchQuery := v; selectedPhotos := selectedPhotos st;
     selectionMode := selectionMode st;
     slideshowActive := slideshowActive st;
     slideshowInterval := slideshowInterval st; viewMode := viewMode st;
     notifications := notifications st; bodyOverflow := bodyOverflow st;
     activeIntervals := activeIntervals st; nextTimerId := nextTimerId st |}.

Definition set_selectedPhotos (v : list Image) (st : App) : App :=
  {| loading := loading st; images := images st;
     displayedImages := displayedImages st;
     groupedImages := groupedImages st; lightboxOpen := lightboxOpen st;
     currentImage := currentImage st; currentIndex := currentIndex st;
     currentPage := currentPage st; totalPages := totalPages st;
     searchQuery := searchQuery st; selectedPhotos := v;
     selectionMode := selectionMode st;
     slideshowActive := slideshowActive st;
     slideshowInterval := slideshowInterval st; viewMode := viewMode st;
     notifications := notifications st; bodyOverflow := bodyOverflow st;
     activeIntervals := activeIntervals st; nextTimerId := nextTimerId st |}.

Definition set_selectionMode (v : bool) (st : App) : App :=
  {| loading := loading st; images := images st;
     displayedImages := displayedImages st;
     groupedImages := groupedImages st; lightboxOpen := lightboxOpen st;
     currentImage := currentImage st; currentIndex := currentIndex st;
     currentPage := currentPage st; totalPages := totalPages st;
     searchQuery := searchQuery st; selectedPhotos := selectedPhotos st;
     selectionMode := v; slideshowActive := slideshowActive st;
     slideshowInterval := slideshowInterval st; viewMode := viewMode st;
     notifications := notifications st; bodyOverflow := bodyOverflow st;
     activeIntervals := activeIntervals st; nextTimerId := nextTimerId st |}.

Definition set_slideshowActive (v : bool) (st : App) : App :=
  {| loading := loading st; images := images st;
     displayedImages := displayedImages st;
     groupedImages := groupedImages st; lightboxOpen := lightboxOpen st;
     currentImage := currentImage st; currentIndex := currentIndex st;
     currentPage := currentPage st; totalPages := totalPages st;
     searchQuery := searchQuery st; selectedPhotos := selectedPhotos st;
     selectionMode := selectionMode st; slideshowActive := v;
     slideshowInterval := slideshowInterval st; viewMode := viewMode st;
     notifications := notifications st; bodyOverflow := bodyOverflow st;
     activeIntervals := activeIntervals st; nextTimerId := nextTimerId st |}.

Definition set_slideshowInterval (v : option nat) (st : App) : App :=
  {| loading := loading st; images := images st;
     displayedImages := displayedImages st;
     groupedImages := groupedImages st; lightboxOpen := lightboxOpen st;
     currentImage := currentImage st; currentIndex := currentIndex st;
     currentPage := currentPage st; totalPages := totalPages st;
     searchQuery := searchQuery st; selectedPhotos := selectedPhotos st;
     selectionMode := selectionMode st;
     slideshowActive := slideshowActive st; slideshowInterval := v;
     viewMode := viewMode st; notifications := notifications st;
     bodyOverflow := bodyOverflow st; activeIntervals := activeIntervals st;
     nextTimerId := nextTimerId st |}.

Definition set_viewMode (v : ViewMode) (st : App) : App :=
  {| loading := loading st; images := images st;
     displayedImages := displayedImages st;
     groupedImages := groupedImages st; lightboxOpen := lightboxOpen st;
     currentImage := currentImage st; currentIndex := currentIndex st;
     currentPage := currentPage st; totalPages := totalPages st;
     searchQuery := searchQuery st; selectedPhotos := selectedPhotos st;
     selectionMode := selectionMode st;
     slideshowActive := slideshowActive st;
     slideshowInterval := slideshowInterval st; viewMode := v;
     notifications := notifications st; bodyOverflow := bodyOverflow st;
     activeIntervals := activeIntervals st; nextTimerId := nextTimerId st |}.

Definition set_notifications (v : list Notification) (st : App) : App :=
  {| loading := loading st; images := images st;
     displayedImages := displayedImages st;
     groupedImages := groupedImages st; lightboxOpen := lightboxOpen st;
     currentImage := currentImage st; currentIndex := currentIndex st;
     currentPage := currentPage st; totalPages := totalPages st;
     searchQuery := searchQuery st; selectedPhotos := selectedPhotos st;
     selectionMode := selectionMode st;
     slideshowActive := slideshowActive st;
     slideshowInterval := slideshowInterval st; viewMode := viewMode st;
     notifications := v; bodyOverflow := bodyOverflow st;
     activeIntervals := activeIntervals st; nextTimerId := nextTimerId st |}.

Definition set_bodyOverflow (v : Overflow) (st : App) : App :=
  {| loading := loading st; images := images st;
     displayedImages := displayedImages st;
     groupedImages := groupedImages st; lightboxOpen := lightboxOpen st;
     currentImage := currentImage st; currentIndex := currentIndex st;
     currentPage := currentPage st; totalPages := totalPages st;
     searchQuery := searchQuery st; selectedPhotos := selectedPhotos st;
     selectionMode := selectionMode st;
     slideshowActive := slideshowActive st;
     slideshowInterval := slideshowInterval st; viewMode := viewMode st;
     notifications := notifications st; bodyOverflow := v;
     activeIntervals := activeIntervals st; nextTimerId := nextTimerId st |}.

Definition set_activeIntervals (v : list (nat * TimerCallback)) (st : App) : App :=
  {| loading := loading st; images := images st;
     displayedImages := displayedImages st;
     groupedImages := groupedImages st; lightboxOpen := lightboxOpen st;
     currentImage := currentImage st; currentIndex := currentIndex st;
     currentPage := currentPage st; totalPages := totalPages st;
     searchQuery := searchQuery st; selectedPhotos := selectedPhotos st;
     selectionMode := selectionMode st;
     slideshowActive := slideshowActive st;
     slideshowInterval := slideshowInterval st; viewMode := viewMode st;
     notifications := notifications st; bodyOverflow := bodyOverflow st;
     activeIntervals := v; nextTimerId := nextTimerId st |}.

Definition set_nextTimerId (v : nat) (st : App) : App :=
  {| loading := loading st; images := images st;
     displayedImages := displayedImages st;
     groupedImages := groupedImages st; lightboxOpen := lightboxOpen st;
     currentImage := currentImage st; currentIndex := currentIndex st;
     currentPage := currentPage st; totalPages := totalPages st;
     searchQuery := searchQuery st; selectedPhotos := selectedPhotos st;
     selectionMode := selectionMode st;
     slideshowActive := slideshowActive st;
     slideshowInterval := slideshowInterval st; viewMode := viewMode st;
     notifications := notifications st; bodyOverflow := bodyOverflow st;
     activeIntervals := activeIntervals st; nextTimerId := v |}.

(** [arr.length]. *)
Definition len {A : Type} (l : list A) : Z := Z.of_nat (length l).

(** ** Sorting

    [Array.prototype.sort(comparefn)]: a comparator result of NaN counts as
    +0 (ECMAScript SortCompare), and the sort is stable. For a consistent
    comparator every conforming engine returns the list computed here; for an
    inconsistent one the order is implementation-defined and this insertion
    sort is one of the permitted outcomes. *)
Definition sortCompare {A : Type} (comparefn : A -> A -> option Z) (x y : A) : Z :=
  match comparefn x y with
  | Some v => v
  | None => 0
  end.

Fixpoint insertSorted {A : Type} (comparefn : A -> A -> option Z)
    (x : A) (l : list A) : list A :=
  match l with
  | [] => [x]
  | y :: l' =>
      if sortCompare comparefn x y >? 0
      then y :: insertSorted comparefn x l'
      else x :: l
  end.

Definition sort {A : Type} (comparefn : A -> A -> option Z) (l : list A) : list A :=
  foldr (insertSorted comparefn) [] l.

(** ** The methods of the gallery object *)

Section Client.

Context (H : Host).

(** [formatDate(timestamp)]; the prefix is the calendar emoji U+1F4C5 (a
    surrogate pair) and a space. *)
Definition formatDate (ts : jsval) : jsstring :=
  if falsy ts then []
  else [55357; 56517; 32]%N ++ toLocaleDateString H (newDate H ts).

(** The callback of [this.images.filter(...)] in [updatePagination]. *)
Definition matchesQuery (query : jsstring) (img : Image) : bool :=
  match caption img with
  | Some c => truthyStr c && includes (toLowerCase H c) (toLowerCase H query)
  | None => false
  end
  || includes (toLowerCase H (formatDate (timestamp img))) (toLowerCase H query).

(** The local [filteredImages] of [updatePagination]. *)
Definition filteredImages (st : App) : list Image :=
  if truthyStr (trim (searchQuery st))
  then List.filter (matchesQuery (searchQuery st)) (images st)
  else images st.

Definition updatePagination (st : App) : App :=
  let filtered := filteredImages st in
  let st1 := set_totalPages (Math_ceil_div (len filtered) photosPerPage) st in
  let st2 := if currentPage st1 >? totalPages st1
             then set_currentPage 1 st1 else st1 in
  let startIndex := (currentPage st2 - 1) * photosPerPage in
  let endIndex := startIndex + photosPerPage in
  set_displayedImages (slice filtered startIndex endIndex) st2.

(** [goToPage(page)]; the final [scrollIntoView] moves the viewport only. *)
Definition goToPage (page : Z) (st : App) : App :=
  if (page >=? 1) && (page <=? totalPages st)
  then updatePagination (set_currentPage page st)
  else st.

Definition nextPage (st : App) : App := goToPage (currentPage st + 1) st.

Definition prevPage (st : App) : App := goToPage (currentPage st - 1) st.

Definition searchPhotos (st : App) : App :=
  updatePagination (set_currentPage 1 st).

Definition clearSearch (st : App) : App :=
  searchPhotos (set_searchQuery [] st).

Definition toggleViewMode (st : App) : App :=
  let mode := match viewMode st with Grouped => Grid | Grid => Grouped end in
  updatePagination (set_currentPage 1 (set_viewMode mode st)).

(** The key under which [groupImagesByMonth] files an image. *)
Definition monthYearOf (image : Image) : jsstring :=
  monthYearString H (newDate H (timestamp image)).

(** The object literal a month's first image creates. *)
Definition newGroup (date : jsdate) : MonthGroup :=
  {| photos := []; count := 0;
     monthName := monthLongString H date;
     year := getFullYear H date;
     sortDate := date |}.

(** [g.photos.push(image); g.count++]. *)
Definition pushPhoto (image : Image) (g : MonthGroup) : MonthGroup :=
  {| photos := photos g ++ [image]; count := count g + 1;
     monthName := monthName g; year := year g; sortDate := sortDate g |}.

(** The body of the [forEach] callback in [groupImagesByMonth]. A lookup in
    the map is a lookup of an own property: the keys are the host's
    month-and-year strings, none of which names a member of
    [Object.prototype]. *)
Definition addToGroup (groups : gmap (list N) MonthGroup) (image : Image)
    : gmap (list N) MonthGroup :=
  let date := newDate H (timestamp image) in
  let monthYear := monthYearString H date in
  let groups1 :=
    match groups !! monthYear with
    | Some _ => groups
    | None => <[monthYear := newGroup date]> groups
    end in
  alter (pushPhoto image) monthYear groups1.

Definition groupImagesByMonth (st : App) : App :=
  set_groupedImages (foldl addToGroup ∅ (images st)) st.

(** The comparator [(a, b) => new Date(b.timestamp) - new Date(a.timestamp)];
    [None] is NaN. *)
Definition newestFirst (a b : Image) : option Z :=
  match newDate H (timestamp b), newDate H (timestamp a) with
  | Some tb, Some ta => Some (tb - ta)
  | _, _ => None
  end.

(** How [fetch('/api/images')] followed by [response.json()] ends: with a
    parsed body whose [images] member may be absent, or with a rejection
    (network error, invalid JSON). *)
Inductive FetchResult : Type :=
| FetchOk (dataImages : option (list Image))
| FetchFailed.

(** [loadImages()], run to completion on the outcome of its fetch. *)
Definition loadImages (r : FetchResult) (st : App) : App :=
  let st := set_loading true st in
  match r with
  | FetchOk dataImages =>
      let st := set_images (default [] dataImages) st in
      let st := set_images (sort newestFirst (images st)) st in
      let st := groupImagesByMonth st in
      let st := updatePagination st in
      set_loading false st
  | FetchFailed =>
      let st := set_images [] st in
      let st := set_displayedImages [] st in
      set_loading false st
  end.

(** [showNotification(message, type)] appends a notification to the page. *)
Definition showNotification (m : Message) (t : NotificationType) (st : App) : App :=
  set_notifications (notifications st ++ [{| message := m; msgType := t |}]) st.

(** [openLightbox(image)]; [addSwipeSupport] only attaches touch listeners. *)
Definition openLightbox (image : Image) (st : App) : App :=
  let st := set_currentImage (Rec image) st in
  let st := set_currentIndex
              (findIndex (fun img => strictEq (img_id img) (img_id image))
                         (images st)) st in
  let st := set_lightboxOpen true st in
  set_bodyOverflow OverflowHidden st.

Definition closeLightbox (st : App) : App :=
  set_bodyOverflow OverflowAuto (set_lightboxOpen false st).

Definition nextImage (st : App) : App :=
  if currentIndex st <? len (images st) - 1 then
    let st := set_currentIndex (currentIndex st + 1) st in
    set_currentImage (imageAt (images st) (currentIndex st)) st
  else st.

Definition prevImage (st : App) : App :=
  if currentIndex st >? 0 then
    let st := set_currentIndex (currentIndex st - 1) st in
    set_currentImage (imageAt (images st) (currentIndex st)) st
  else st.

Definition toggleSelectionMode (st : App) : App :=
  let st := set_selectionMode (negb (selectionMode st)) st in
  if negb (selectionMode st) then set_selectedPhotos [] st else st.

Definition sameId (photo p : Image) : bool := strictEq (img_id p) (img_id photo).

Definition togglePhotoSelection (photo : Image) (st : App) : App :=
  let index := findIndex (sameId photo) (selectedPhotos st) in
  if index >? -1
  then set_selectedPhotos (splice1 (selectedPhotos st) index) st
  else set_selectedPhotos (selectedPhotos st ++ [photo]) st.

Definition isPhotoSelected (photo : Image) (st : App) : bool :=
  existsb (sameId photo) (selectedPhotos st).

Definition selectAllVisible (st : App) : App :=
  foldl (fun st photo =>
           if negb (isPhotoSelected photo st)
           then set_selectedPhotos (selectedPhotos st ++ [photo]) st
           else st)
        st (displayedImages st).

Definition clearSelection (st : App) : App := set_selectedPhotos [] st.

(** [setInterval(callback, delay)]: a fresh timer id, and the timer runs
    until cleared. Timer ids are positive, hence truthy. *)
Definition setInterval (cb : TimerCallback) (st : App) : nat * App :=
  let id := nextTimerId st in
  (id, set_nextTimerId (S id) (set_activeIntervals (activeIntervals st ++ [(id, cb)]) st)).

Definition clearInterval (id : nat) (st : App) : App :=
  set_activeIntervals
    (List.filter (fun t => negb (Nat.eqb (fst t) id)) (activeIntervals st)) st.

Definition stopSlideshow (st : App) : App :=
  let st := set_slideshowActive false st in
  let st := match slideshowInterval st with
            | Some id => set_slideshowInterval None (clearInterval id st)
            | None => st
            end in
  showNotification MsgSlideshowStopped NInfo st.

(** The callback that [startSlideshow] hands to [setInterval]. *)
Definition slideshowTick (st : App) : App :=
  let st := nextImage st in
  if currentIndex st =? len (images st) - 1 then stopSlideshow st else st.

Definition startSlideshow (st : App) : App :=
  if len (images st) =? 0 then st else
  let st := set_slideshowActive true st in
  let st := set_currentIndex 0 st in
  let st := set_currentImage (imageAt (images st) 0) st in
  let st := set_lightboxOpen true st in
  let st := set_bodyOverflow OverflowHidden st in
  let '(id, st) := setInterval SlideshowTimer st in
  let st := set_slideshowInterval (Some id) st in
  showNotification MsgSlideshowStarted NSuccess st.

(** The callback that [setupAutoRefresh] hands to [setInterval], run to
    completion on the outcome of the fetch it awaits. *)
Definition autoRefreshTick (r : FetchResult) (st : App) : App :=
  let currentCount := len (images st) in
  let st := loadImages r st in
  if len (images st) >? currentCount then
    let newCount := len (images st) - currentCount in
    showNotification (MsgNewPhotos newCount) NSuccess st
  else st.

Definition setupAutoRefresh (st : App) : App :=
  snd (setInterval AutoRefreshTimer st).

Definition refreshGallery (r : FetchResult) (st : App) : App :=
  showNotification MsgGalleryRefreshed NSuccess (loadImages r st).

(** Whether [setInterval] has registered the timer and nothing has cleared
    it since. *)
Definition timerRunning (t : nat * TimerCallback) (st : App) : bool :=
  bool_decide (t ∈ activeIntervals st).

(** An interval elapses: a running timer runs its callback, a cleared one
    does nothing. For an auto-refresh poll, [r] is the outcome of the fetch
    it awaits. *)
Definition slideshowTimerFires (id : nat) (st : App) : App :=
  if timerRunning (id, SlideshowTimer) st then slideshowTick st else st.

Definition autoRefreshTimerFires (id : nat) (r : FetchResult) (st : App) : App :=
  if timerRunning (id, AutoRefreshTimer) st then autoRefreshTick r st else st.

End Client.

(** ** Page numbers and the keyboard *)

(** [for (let i = start; i <= end; i++) pages.push(i)]. *)
Definition pageRange (start end_ : Z) : list Z :=
  map (fun k => start + Z.of_nat k) (seq 0 (Z.to_nat (end_ - start + 1))).

(** [getPageNumbers()]: the page buttons the pager shows. *)
Definition getPageNumbers (st : App) : list Z :=
  let maxVisible := 5 in
  if totalPages st <=? maxVisible then pageRange 1 (totalPages st)
  else
    let start := Z.max 1 (currentPage st - 2) in
    let end_ := Z.min (totalPages st) (start + maxVisible - 1) in
    pageRange start end_.

(** The keys of the [keydown] listener whose handling stays within the
    modelled methods: [KeySelectAll] is a or A with Ctrl or Meta held, and
    [KeyOther] is a key that no [case] of either [switch] names. The keys d,
    s and f (download, share, fullscreen) are not represented. *)
Inductive Key : Type :=
| KeyEscape
| KeyArrowLeft
| KeyArrowRight
| KeySpace
| KeySelectAll
| KeyOther.

(** The document's [keydown] listener on the gallery's data. *)
Definition keydown (k : Key) (st : App) : App :=
  if lightboxOpen st then
    match k with
    | KeyEscape => set_bodyOverflow OverflowAuto (set_lightboxOpen false st)
    | KeyArrowLeft => if currentIndex st >? 0 then prevImage st else st
    | KeyArrowRight =>
        if currentIndex st <? len (images st) - 1 then nextImage st else st
    | KeySpace =>
        if slideshowActive st then stopSlideshow st else startSlideshow st
    | KeySelectAll | KeyOther => st
    end
  else
    match k with
    | KeySelectAll =>
        let st := if negb (selectionMode st) then toggleSelectionMode st else st in
        selectAllVisible st
    | KeyEscape => if selectionMode st then toggleSelectionMode st else st
    | KeyArrowLeft | KeyArrowRight | KeySpace | KeyOther => st
    end.

(** ** A concrete host

    A browser in the en-US locale and the UTC time zone, for ASCII text and
    numeric (epoch-millisecond) timestamps of the common era: the inputs the
    examples below run the client on. This instance reads a string timestamp
    as an Invalid Date. *)
Module UtcHost.

Definition lowerUnit (c : N) : N :=
  if ((65 <=? c) && (c <=? 90))%N then (c + 32)%N else c.

Definition asciiLower (s : jsstring) : jsstring := map lowerUnit s.

(** Days since 1970-01-01 to (year, month, day) in the proleptic Gregorian
    calendar. *)
Definition civilFromDays (days : Z) : Z * Z * Z :=
  let z := days + 719468 in
  let era := z / 146097 in
  let doe := z - era * 146097 in
  let yoe := (doe - doe / 1460 + doe / 36524 - doe / 146096) / 365 in
  let doy := doe - (365 * yoe + yoe / 4 - yoe / 100) in
  let mp := (5 * doy + 2) / 153 in
  let d := doy - (153 * mp + 2) / 5 + 1 in
  let m := if mp <? 10 then mp + 3 else mp - 9 in
  let y := yoe + era * 400 + (if m <=? 2 then 1 else 0) in
  (y, m, d).

Definition msPerDay : Z := 86400000.

Definition monthNames : list string :=
  ["January"; "February"; "March"; "April"; "May"; "June"; "July";
   "August"; "September"; "October"; "November"; "December"]%string.

Definition longMonth (m : Z) : jsstring :=
  str (nth (Z.to_nat (m - 1)) monthNames "Invalid Date"%string).

Definition invalidDate : jsstring := str "Invalid Date".

Definition parse (v : jsval) : jsdate :=
  match v with
  | JNum n => if (-8640000000000000 <=? n) && (n <=? 8640000000000000)
              then Some n else None
  | JNull => Some 0
  | JUndefined | JStr _ => None
  end.

Definition numericDate (d : jsdate) : jsstring :=
  match d with
  | Some t =>
      let '(y, m, dd) := civilFromDays (t / msPerDay) in
      decimal m ++ str "/" ++ decimal dd ++ str "/" ++ decimal y
  | None => invalidDate
  end.

Definition monthYear (d : jsdate) : jsstring :=
  match d with
  | Some t =>
      let '(y, m, _) := civilFromDays (t / msPerDay) in
      longMonth m ++ str " " ++ decimal y
  | None => invalidDate
  end.

Definition monthLong (d : jsdate) : jsstring :=
  match d with
  | Some t => let '(_, m, _) := civilFromDays (t / msPerDay) in longMonth m
  | None => invalidDate
  end.

Definition fullYear (d : jsdate) : option Z :=
  match d with
  | Some t => let '(y, _, _) := civilFromDays (t / msPerDay) in Some y
  | None => None
  end.

Definition asciiLower_nonempty (s : jsstring) : asciiLower s = [] -> s = [].
Proof. destruct s; [reflexivity | discriminate]. Defined.

Definition host : Host := {|
  toLowerCase := asciiLower;
  newDate := parse;
  toLocaleDateString := numericDate;
  monthYearString := monthYear;
  monthLongString := monthLong;
  getFullYear := fullYear;
  toLowerCase_nil := eq_refl;
  toLowerCase_nonempty := asciiLower_nonempty
|}.

End UtcHost.

(** ** Sample data *)

(** A record with a numeric id, a caption and a numeric timestamp. *)
Definition photo (n : Z) (cap : string) (t : Z) : Image := {|
  img_id := JNum n;
  full_url := str "https://example.org/photo.jpg";
  thumbnail_url := None;
  caption := Some (str cap);
  timestamp := JNum t
|}.

(** [n] records with ids [n, ..., 1], one per day, newest first. *)
Definition album (n : nat) : list Image :=
  map (fun k => photo (Z.of_nat k) "Gaurav" (Z.of_nat k * UtcHost.msPerDay))
      (rev (seq 1 n)).

(** The page after the first load delivered [imgs]. *)
Definition loaded (imgs : list Image) : App :=
  loadImages UtcHost.host (FetchOk (Some imgs)) initialApp.

(** Three captioned records, newest first. *)
Definition family : list Image :=
  [photo 3 "first steps" (3 * UtcHost.msPerDay);
   photo 2 "Bath time" (2 * UtcHost.msPerDay);
   photo 1 "First smile" UtcHost.msPerDay].

(** A record that carries neither a caption nor a timestamp. *)
Definition bare : Image := {|
  img_id := JNum 9;
  full_url := str "https://example.org/bare.jpg";
  thumbnail_url := None;
  caption := None;
  timestamp := JUndefined
|}.

(** ** The search filter in the specification's words *)



(** ** Newest-first order in the specification's words *)

(** [a]'s timestamp is greater than or equal to [b]'s, as dates; as in
    JavaScript, no comparison with an Invalid Date holds. *)
Definition newerOrSame (H : Host) (a b : Image) : Prop :=
  match newDate H (timestamp a), newDate H (timestamp b) with
  | Some ta, Some tb => tb <= ta
  | _, _ => False
  end.

(** Every pair of adjacent records is in newest-first order. *)
Definition sortedNewestFirst (H : Host) (l : list Image) : Prop :=
  forall (i : nat) (a b : Image),
    l !! i = Some a -> l !! S i = Some b -> newerOrSame H a b.

(** The data model's ImageRecord carries a datetime: the timestamp of every
    record parses to a valid date. *)
Definition validTimestamps (H : Host) (l : list Image) : Prop :=
  Forall (fun img => is_Some (newDate H (timestamp img))) l.

(** The notification of [n] new photos. *)
Definition newPhotosNotification (n : Z) : Notification :=
  {| message := MsgNewPhotos n; msgType := NSuccess |}.

(** ** Month groups in the specification's words *)

(** The sum of the [count] fields of all month groups. *)
Definition totalCount (groups : gmap (list N) MonthGroup) : Z :=
  map_fold (fun _ g acc => count g + acc) 0 groups.

(** [img] falls in the calendar month with key [k]. *)
Definition inMonth (H : Host) (k : jsstring) (img : Image) : bool :=
  bool_decide (monthYearOf H img = k).

(** What the loop of [groupImagesByMonth] has built after the images [l]. *)
Definition grouped (H : Host) (l : list Image)
    (groups : gmap (list N) MonthGroup) : Prop :=
  forall k : jsstring,
    match groups !! k with
    | Some g => photos g = List.filter (inMonth H k) l
                /\ photos g <> []
                /\ count g = len (photos g)
    | None => List.filter (inMonth H k) l = []
    end.

(** ** A slideshow run

    The page after [startSlideshow] and [k] elapsed intervals of the timer it
    started, with no other event in between. *)
Definition slideshowRun (k : nat) (st : App) : App :=
  Nat.iter k (slideshowTimerFires (nextTimerId st)) (startSlideshow st).

(** ** Selections the client can build *)

(** No two selected photos share an id. *)
Definition uniqueIds (l : list Image) : Prop := NoDup (map img_id l).

(** [arr.splice(arr.findIndex(p), 1)] when an element satisfies [p]. *)
Fixpoint removeFirst {A : Type} (p : A -> bool) (l : list A) : list A :=
  match l with
  | [] => []
  | x :: l' => if p x then l' else x :: removeFirst p l'
  end.

(** One event of the page: a call of a method of the gallery object by the
    template or by a key or touch handler, a keystroke in the search box, or
    a timer that fires. *)
Inductive step (H : Host) : App -> App -> Prop :=
| step_loadImages r st : step H st (loadImages H r st)
| step_refreshGallery r st : step H st (refreshGallery H r st)
| step_typeQuery q st : step H st (set_searchQuery q st)
| step_searchPhotos st : step H st (searchPhotos H st)
| step_clearSearch st : step H st (clearSearch H st)
| step_goToPage page st : step H st (goToPage H page st)
| step_toggleViewMode st : step H st (toggleViewMode H st)
| step_openLightbox image st : step H st (openLightbox image st)
| step_closeLightbox st : step H st (closeLightbox st)
| step_nextImage st : step H st (nextImage st)
| step_prevImage st : step H st (prevImage st)
| step_toggleSelectionMode st : step H st (toggleSelectionMode st)
| step_togglePhotoSelection photo st : step H st (togglePhotoSelection photo st)
| step_selectAllVisible st : step H st (selectAllVisible st)
| step_clearSelection st : step H st (clearSelection st)
| step_startSlideshow st : step H st (startSlideshow st)
| step_stopSlideshow st : step H st (stopSlideshow st)
| step_setupAutoRefresh st : step H st (setupAutoRefresh st)
| step_slideshowTimer id st : step H st (slideshowTimerFires id st)
| step_autoRefreshTimer id r st : step H st (autoRefreshTimerFires H id r st).

(** The pages reachable from a fresh one. *)
Inductive reachable (H : Host) : App -> Prop :=
| reachable_initial : reachable H initialApp
| reachable_step st st' : reachable H st -> step H st st' -> reachable H st'.

(** ** Further notions used in the properties *)

(** [this.f] for the four fields that pagination reads and writes. *)
Definition paged (T C : Z) (D : list Image) (st : App) : App :=
  set_displayedImages D (set_currentPage C (set_totalPages T st)).

(** The loop of [selectAllVisible] on the selection alone. *)
Definition selectAll (selected shown : list Image) : list Image :=
  foldl (fun sel photo =>
           if existsb (sameId photo) sel then sel else sel ++ [photo])
        selected shown.

(** Timer ids are handed out in increasing order: every running timer, and
    the slideshow's recorded timer, has an id below the next one, and the
    recorded slideshow timer is not an auto-refresh timer. *)
Definition timersFresh (st : App) : Prop :=
  (forall t, t ∈ activeIntervals st -> (fst t < nextTimerId st)%nat)
  /\ (forall id, slideshowInterval st = Some id ->
        (id < nextTimerId st)%nat
        /\ (id, AutoRefreshTimer) ∉ activeIntervals st).

(** What the pager shows is part of the list: at most one page of images,
    all from the image list and in its order, on a page number of at least
    1. *)
Definition pageConsistent (st : App) : Prop :=
  sublist (displayedImages st) (images st)
  /\ (length (displayedImages st) <= 24)%nat
  /\ 1 <= currentPage st
  /\ 0 <= totalPages st.

(** The fields that hold the timers, and the fields that pagination
    owns. *)
Definition timerFields (st : App) : list (nat * TimerCallback) * nat * option nat :=
  (activeIntervals st, nextTimerId st, slideshowInterval st).

Definition pageFields (st : App) : list Image * list Image * Z * Z :=
  (images st, displayedImages st, currentPage st, totalPages st).

(** ** Events during a slideshow *)

(** The flag and the index a slideshow runs on. *)
Definition slideFields (st : App) : bool * Z :=
  (slideshowActive st, currentIndex st).

(** While a slideshow is active the index is at most the last index. *)
Definition slideshowBounded (st : App) : Prop :=
  slideshowActive st = true -> currentIndex st <= len (images st) - 1.

(** The pages a slideshow passes through: [startSlideshow] on a page with
    images, then any events (ticks, keys, navigation, selection, polls) that
    leave the image list as it is. *)
Inductive duringSlideshow (H : Host) (st0 : App) : App -> Prop :=
| duringSlideshow_start :
    images st0 <> [] -> duringSlideshow H st0 (startSlideshow st0)
| duringSlideshow_step s s' :
    duringSlideshow H st0 s -> step H s s' -> images s' = images s ->
    duringSlideshow H st0 s'.

(** Records for a load with a missing timestamp: day 1, no timestamp,
    day 2. *)
Definition mixed : list Image :=
  [photo 1 "First smile" UtcHost.msPerDay; bare;
   photo 2 "Bath time" (2 * UtcHost.msPerDay)].

(** * Properties *)

(** ** The concrete host formats dates as an en-US browser in UTC does *)

Example numericDate_epoch : UtcHost.numericDate (Some 0) = str "1/1/1970".
Proof. reflexivity. Qed.

Example numericDate_2023 :
  UtcHost.numericDate (Some 1700000000000) = str "11/14/2023".
Proof. reflexivity. Qed.

Example numericDate_leap :
  UtcHost.numericDate (Some 951782400000) = str "2/29/2000".
Proof. reflexivity. Qed.

Example monthYear_2023 :
  UtcHost.monthYear (Some 1700000000000) = str "November 2023".
Proof. reflexivity. Qed.

Example monthYear_1969 : UtcHost.monthYear (Some (-1)) = str "December 1969".
Proof. reflexivity. Qed.

(** ** Arithmetic and array helpers *)

Lemma Math_ceil_div_floor (a b : Z) : Math_ceil_div a b = - ((- a) / b).
Proof.
  unfold Math_ceil_div, Qceiling. f_equal.
  rewrite Zdiv_Qdiv. apply Qfloor_comp.
  rewrite inject_Z_opp. unfold Qdiv. ring.
Qed.

(** [Math_ceil_div a b] is the least integer [t] with [a <= b * t]. *)
Lemma Math_ceil_div_bounds (a b : Z) :
  0 < b -> b * (Math_ceil_div a b - 1) < a <= b * Math_ceil_div a b.
Proof.
  intros Hb. rewrite Math_ceil_div_floor.
  pose proof (Z.div_mod (- a) b ltac:(lia)) as Hdm.
  pose proof (Z.mod_pos_bound (- a) b Hb) as Hm.
  nia.
Qed.

Lemma len_nonneg {A : Type} (l : list A) : 0 <= len l.
Proof. unfold len. lia. Qed.

Lemma len_nil_iff {A : Type} (l : list A) : len l = 0 <-> l = [].
Proof.
  unfold len. split.
  - destruct l; [reflexivity | simpl; lia].
  - intros ->. reflexivity.
Qed.

Lemma slice_nonneg {A : Type} (l : list A) (s e : Z) :
  0 <= s -> 0 <= e ->
  slice l s e = take (Z.to_nat e - Z.to_nat s) (drop (Z.to_nat s) l).
Proof.
  intros Hs He. unfold slice, relativeIndex.
  destruct (Z.ltb_spec s 0); [lia|]. destruct (Z.ltb_spec e 0); [lia|].
  destruct (Z.le_gt_cases (Z.of_nat (length l)) s) as [Hge | Hlt].
  - rewrite !drop_ge by lia. by rewrite !take_nil.
  - rewrite (Z.min_l s) by lia.
    destruct (Z.le_gt_cases e (Z.of_nat (length l))).
    + rewrite Z.min_l by lia. f_equal. lia.
    + rewrite Z.min_r by lia.
      rewrite !take_ge; [done | | ]; rewrite length_drop; lia.
Qed.

Lemma slice_first_page {A : Type} (l : list A) (n : Z) :
  0 <= n -> slice l 0 n = take (Z.to_nat n) l.
Proof.
  intros Hn. rewrite slice_nonneg by lia. simpl.
  by rewrite Nat.sub_0_r, drop_0.
Qed.

(** ** Pagination *)

Section Pagination.

Context (H : Host).

Lemma trim_nil_not_truthy (q : jsstring) : trim q = [] -> truthyStr (trim q) = false.
Proof. intros ->. reflexivity. Qed.

Lemma filteredImages_no_query (st : App) :
  trim (searchQuery st) = [] -> filteredImages H st = images st.
Proof.
  intros Hq. unfold filteredImages. by rewrite (trim_nil_not_truthy _ Hq).
Qed.

Lemma updatePagination_totalPages (st : App) :
  totalPages (updatePagination H st)
  = Math_ceil_div (len (filteredImages H st)) photosPerPage.
Proof. unfold updatePagination. simpl. by destruct (_ >? _). Qed.

Lemma updatePagination_currentPage (st : App) :
  currentPage (updatePagination H st)
  = if currentPage st >? totalPages (updatePagination H st)
    then 1 else currentPage st.
Proof.
  rewrite updatePagination_totalPages. unfold updatePagination. simpl.
  by destruct (_ >? _).
Qed.

Lemma updatePagination_displayedImages (st : App) :
  let st' := updatePagination H st in
  displayedImages st'
  = slice (filteredImages H st)
          ((currentPage st' - 1) * photosPerPage)
          ((currentPage st' - 1) * photosPerPage + photosPerPage).
Proof.
  intros st'. subst st'. rewrite updatePagination_currentPage.
  rewrite updatePagination_totalPages.
  unfold updatePagination. simpl. by destruct (_ >? _).
Qed.

Lemma updatePagination_images (st : App) :
  images (updatePagination H st) = images st.
Proof. unfold updatePagination. simpl. by destruct (_ >? _). Qed.

Lemma updatePagination_searchQuery (st : App) :
  searchQuery (updatePagination H st) = searchQuery st.
Proof. unfold updatePagination. simpl. by destruct (_ >? _). Qed.

Lemma goToPage_in_range (page : Z) (st : App) :
  1 <= page <= totalPages st ->
  goToPage H page st = updatePagination H (set_currentPage page st).
Proof.
  intros [H1 H2]. unfold goToPage.
  destruct (Z.geb_spec page 1); [| lia].
  destruct (Z.leb_spec page (totalPages st)); [reflexivity | lia].
Qed.

Lemma goToPage_out_of_range (page : Z) (st : App) :
  page < 1 \/ totalPages st < page -> goToPage H page st = st.
Proof.
  intros Hout. unfold goToPage.
  destruct (Z.geb_spec page 1); [| reflexivity].
  destruct (Z.leb_spec page (totalPages st)); [lia | reflexivity].
Qed.

(** C1. After [updatePagination], [totalPages] is the ceiling of the number
    [n] of (possibly search-filtered) images over the page size 24: it is the
    integer [t] with [24 * (t - 1) < n <= 24 * t], and [n] is the length of
    the whole image list when the query is empty after trimming. A current
    page above [totalPages] is reset to 1 and any other is kept; page 1 is
    never rejected, also when the list is empty (then [totalPages] is 0 and
    every page from 1 on ends as page 1); a current page of at least 1 stays
    so, and [goToPage(1)] then always ends on page 1; on page 1 the displayed
    images are the first 24 of the filtered list. *)
Theorem updatePagination_total_pages_and_page_one (st : App) :
  let st' := updatePagination H st in
  let n := len (filteredImages H st) in
  (photosPerPage = 24
   /\ photosPerPage * (totalPages st' - 1) < n <= photosPerPage * totalPages st')
  /\ (trim (searchQuery st) = [] -> n = len (images st))
  /\ currentPage st'
     = (if currentPage st >? totalPages st' then 1 else currentPage st)
  /\ (currentPage st = 1 -> currentPage st' = 1)
  /\ (n = 0 -> totalPages st' = 0
               /\ (1 <= currentPage st -> currentPage st' = 1))
  /\ (1 <= currentPage st ->
      1 <= currentPage st'
      /\ (currentPage st' <= totalPages st' \/ currentPage st' = 1)
      /\ currentPage (goToPage H 1 st') = 1)
  /\ (currentPage st' = 1 ->
      displayedImages st' = take 24 (filteredImages H st)).
Proof.
  intros st' n. subst st' n.
  pose proof (Math_ceil_div_bounds (len (filteredImages H st)) photosPerPage
                ltac:(reflexivity)) as Hceil.
  pose proof (updatePagination_totalPages st) as Htp.
  pose proof (updatePagination_currentPage st) as Hcp.
  pose proof (len_nonneg (filteredImages H st)) as Hlen.
  rewrite <- Htp in Hceil.
  assert (Hpp : photosPerPage = 24) by reflexivity.
  repeat split.
  - lia.
  - lia.
  - intros Hq. by rewrite filteredImages_no_query.
  - exact Hcp.
  - intros H1. rewrite Hcp, H1.
    by destruct (1 >? totalPages (updatePagination H st)).
  - lia.
  - intros H1. rewrite Hcp.
    destruct (Z.gtb_spec (currentPage st) (totalPages (updatePagination H st)));
      lia.
  - rewrite Hcp. destruct (_ >? _); lia.
  - rewrite Hcp.
    destruct (Z.gtb_spec (currentPage st) (totalPages (updatePagination H st)));
      lia.
  - destruct (Z.le_gt_cases 1 (totalPages (updatePagination H st))) as [Hge | Hlt].
    + rewrite goToPage_in_range by lia. rewrite updatePagination_currentPage.
      simpl. by destruct (1 >? _).
    + rewrite goToPage_out_of_range by lia. rewrite Hcp.
      destruct (Z.gtb_spec (currentPage st) (totalPages (updatePagination H st)));
        lia.
  - intros H1. rewrite updatePagination_displayedImages, H1.
    change ((1 - 1) * photosPerPage) with 0.
    change (0 + photosPerPage) with 24.
    by rewrite slice_first_page.
Qed.

End Pagination.

(** ** The 25-image scenario *)

Section Scenario.

Context (H : Host).

Lemma filteredImages_ext (st1 st2 : App) :
  images st1 = images st2 -> searchQuery st1 = searchQuery st2 ->
  filteredImages H st1 = filteredImages H st2.
Proof. intros Hi Hq. unfold filteredImages. by rewrite Hi, Hq. Qed.

Lemma drop_24_of_25 {A : Type} (l : list A) :
  length l = 25%nat ->
  slice l 24 48 = drop 24 l
  /\ length (drop 24 l) = 1%nat
  /\ drop 24 l !! 0%nat = l !! 24%nat.
Proof.
  intros Hl. rewrite slice_nonneg by lia. split; [| split].
  - apply take_ge. rewrite length_drop. lia.
  - rewrite length_drop. lia.
  - rewrite lookup_drop. f_equal.
Qed.

(** C8. With 25 images and an empty search query, [updatePagination] yields
    2 pages of 24; going to page 2 is accepted, and page 2 displays exactly
    one image, the 25th of the (sorted) list. The same one image is displayed
    when [updatePagination] runs with page 2 already current. *)
Theorem twenty_five_images_two_pages (st : App) :
  length (images st) = 25%nat ->
  trim (searchQuery st) = [] ->
  let st1 := updatePagination H st in
  let st2 := goToPage H 2 st1 in
  totalPages st1 = 2
  /\ currentPage st2 = 2
  /\ totalPages st2 = 2
  /\ displayedImages st2 = drop 24 (images st)
  /\ length (displayedImages st2) = 1%nat
  /\ displayedImages st2 !! 0%nat = images st !! 24%nat
  /\ (currentPage st = 2 -> displayedImages st1 = drop 24 (images st)).
Proof.
  intros Hlen Hq st1 st2.
  assert (Hceil : forall s, images s = images st -> searchQuery s = searchQuery st ->
                            totalPages (updatePagination H s) = 2).
  { intros s Hi Hs. rewrite updatePagination_totalPages.
    rewrite filteredImages_no_query by (by rewrite Hs).
    unfold len. rewrite Hi, Hlen. reflexivity. }
  assert (Hpage2 : forall s, images s = images st -> searchQuery s = searchQuery st ->
                             currentPage s = 2 ->
                             currentPage (updatePagination H s) = 2
                             /\ displayedImages (updatePagination H s)
                                = drop 24 (images st)).
  { intros s Hi Hs Hc.
    assert (Hcp : currentPage (updatePagination H s) = 2).
    { rewrite updatePagination_currentPage, (Hceil s Hi Hs), Hc. reflexivity. }
    split; [exact Hcp |].
    rewrite updatePagination_displayedImages, Hcp.
    rewrite filteredImages_no_query by (by rewrite Hs). rewrite Hi.
    change ((2 - 1) * photosPerPage) with 24.
    change (24 + photosPerPage) with 48.
    apply (drop_24_of_25 _ Hlen). }
  assert (Ht1 : totalPages st1 = 2) by (apply Hceil; reflexivity).
  assert (Hst2 : st2 = updatePagination H (set_currentPage 2 st1)).
  { apply goToPage_in_range. lia. }
  assert (Hi1 : images st1 = images st) by apply updatePagination_images.
  assert (Hq1 : searchQuery st1 = searchQuery st)
    by apply updatePagination_searchQuery.
  destruct (Hpage2 (set_currentPage 2 st1) Hi1 Hq1 eq_refl) as [Hc2 Hd2].
  destruct (drop_24_of_25 _ Hlen) as (_ & Hl1 & Hl0).
  rewrite Hst2. repeat split.
  - exact Ht1.
  - exact Hc2.
  - by apply Hceil.
  - exact Hd2.
  - by rewrite Hd2.
  - by rewrite Hd2.
  - intros Hc. by apply Hpage2.
Qed.

End Scenario.

(** C8 on the page that loaded an album of 25 photos. *)
Lemma twenty_five_images_two_pages_witness :
  let st := loaded (album 25) in
  let st2 := goToPage UtcHost.host 2 (updatePagination UtcHost.host st) in
  (length (images st) = 25%nat /\ trim (searchQuery st) = [])
  /\ totalPages (updatePagination UtcHost.host st) = 2
  /\ currentPage st2 = 2
  /\ displayedImages st2 = [photo 1 "Gaurav" UtcHost.msPerDay].
Proof.
  pose proof (twenty_five_images_two_pages UtcHost.host (loaded (album 25))
                ltac:(vm_compute; reflexivity) ltac:(reflexivity)) as Hthm.
  cbv zeta in Hthm. destruct Hthm as (Ht & Hc & _ & Hd & _).
  split; [split; [vm_compute; reflexivity | reflexivity] |].
  split; [exact Ht |]. split; [exact Hc |].
  rewrite Hd. vm_compute. reflexivity.
Defined.

(** ** Search filtering *)

Section Search.

Context (H : Host).

Lemma filter_sublist {A : Type} (f : A -> bool) (l : list A) :
  sublist (List.filter f l) l.
Proof.
  induction l as [| x l IH]; simpl.
  - constructor.
  - destruct (f x); by constructor.
Qed.

Lemma includes_nil_l (sub : jsstring) : sub <> [] -> includes [] sub = false.
Proof. destruct sub; [congruence | reflexivity]. Qed.

Lemma trim_nil : trim [] = [].
Proof. reflexivity. Qed.




End Search.



(** ** Loading and sorting *)

Section Loading.

Context (H : Host).

Lemma sort_permutation {A : Type} (cmp : A -> A -> option Z) (l : list A) :
  Permutation (sort cmp l) l.
Proof.
  assert (Hins : forall x k, Permutation (insertSorted cmp x k) (x :: k)).
  { intros x k. induction k as [| y k IH]; simpl; [reflexivity |].
    destruct (_ >? 0); [| reflexivity].
    rewrite IH. apply perm_swap. }
  induction l as [| x l IH]; simpl; [reflexivity |].
  unfold sort in IH. by rewrite Hins, IH.
Qed.

Lemma insertSorted_HdRel (x a : Image) (l : list Image) :
  newerOrSame H a x -> HdRel (newerOrSame H) a l ->
  HdRel (newerOrSame H) a (insertSorted (newestFirst H) x l).
Proof.
  intros Hax Hal. destruct l as [| y l]; simpl.
  - by constructor.
  - destruct (_ >? 0); constructor; [by inversion Hal | exact Hax].
Qed.

Lemma insertSorted_sorted (x : Image) (l : list Image) :
  is_Some (newDate H (timestamp x)) ->
  validTimestamps H l ->
  Sorted (newerOrSame H) l ->
  Sorted (newerOrSame H) (insertSorted (newestFirst H) x l).
Proof.
  intros [tx Hx] Hvalid Hsorted.
  induction Hsorted as [| y l Hl IH Hhd]; simpl.
  - repeat constructor.
  - apply Forall_cons in Hvalid as [[ty Hy] Hvalid].
    unfold sortCompare, newestFirst. rewrite Hx, Hy.
    destruct (Z.gtb_spec (ty - tx) 0) as [Hgt | Hle].
    + constructor; [by apply IH |].
      apply insertSorted_HdRel; [| exact Hhd].
      unfold newerOrSame. rewrite Hx, Hy. lia.
    + constructor; [by constructor |].
      constructor. unfold newerOrSame. rewrite Hx, Hy. lia.
Qed.

Lemma sort_sorted (l : list Image) :
  validTimestamps H l -> Sorted (newerOrSame H) (sort (newestFirst H) l).
Proof.
  induction 1 as [| x l Hx Hl IH]; simpl; [constructor |].
  apply insertSorted_sorted; [exact Hx | | exact IH].
  unfold validTimestamps.
  by rewrite (sort_permutation (newestFirst H) l).
Qed.

Lemma Sorted_adjacent (l : list Image) :
  Sorted (newerOrSame H) l -> sortedNewestFirst H l.
Proof.
  induction 1 as [| x l Hl IH Hhd]; intros i a b Ha Hb; [done |].
  destruct i as [| i]; simpl in *.
  - injection Ha as <-. destruct Hhd as [| y l Hxy]; [done |].
    simpl in Hb. by injection Hb as <-.
  - by apply (IH i).
Qed.

Lemma groupImagesByMonth_images (st : App) :
  images (groupImagesByMonth H st) = images st.
Proof. reflexivity. Qed.

Lemma loadImages_ok_unfold (d : option (list Image)) (st : App) :
  loadImages H (FetchOk d) st
  = set_loading false
      (updatePagination H
         (groupImagesByMonth H
            (set_images (sort (newestFirst H) (default [] d))
               (set_images (default [] d) (set_loading true st))))).
Proof. reflexivity. Qed.

Lemma images_set_loading (v : bool) (st : App) :
  images (set_loading v st) = images st.
Proof. reflexivity. Qed.

Lemma notifications_set_loading (v : bool) (st : App) :
  notifications (set_loading v st) = notifications st.
Proof. reflexivity. Qed.

Lemma activeIntervals_set_loading (v : bool) (st : App) :
  activeIntervals (set_loading v st) = activeIntervals st.
Proof. reflexivity. Qed.

Lemma loadImages_ok_images (d : option (list Image)) (st : App) :
  images (loadImages H (FetchOk d) st) = sort (newestFirst H) (default [] d).
Proof.
  rewrite loadImages_ok_unfold, images_set_loading.
  by rewrite updatePagination_images.
Qed.

Lemma updatePagination_notifications (st : App) :
  notifications (updatePagination H st) = notifications st.
Proof. unfold updatePagination. simpl. by destruct (_ >? _). Qed.

Lemma loadImages_notifications (r : FetchResult) (st : App) :
  notifications (loadImages H r st) = notifications st.
Proof.
  destruct r as [d |]; [| reflexivity].
  rewrite loadImages_ok_unfold, notifications_set_loading.
  by rewrite updatePagination_notifications.
Qed.

Lemma updatePagination_activeIntervals (st : App) :
  activeIntervals (updatePagination H st) = activeIntervals st.
Proof. unfold updatePagination. simpl. by destruct (_ >? _). Qed.

Lemma loadImages_activeIntervals (r : FetchResult) (st : App) :
  activeIntervals (loadImages H r st) = activeIntervals st.
Proof.
  destruct r as [d |]; [| reflexivity].
  rewrite loadImages_ok_unfold, activeIntervals_set_loading.
  by rewrite updatePagination_activeIntervals.
Qed.

(** C4 (amended). After a successful [loadImages] whose records all carry a
    timestamp that parses to a valid date, the images array is in
    newest-first order: the timestamp of every record is greater than or
    equal to that of the record after it. The array holds the delivered
    records, each as often as delivered. *)
Theorem loadImages_sorts_newest_first (d : option (list Image)) (st : App) :
  validTimestamps H (default [] d) ->
  let st' := loadImages H (FetchOk d) st in
  sortedNewestFirst H (images st')
  /\ Permutation (images st') (default [] d)
  /\ loading st' = false.
Proof.
  intros Hvalid st'. subst st'. rewrite loadImages_ok_images.
  split; [| split].
  - by apply Sorted_adjacent, sort_sorted.
  - apply sort_permutation.
  - reflexivity.
Qed.

(** C3. When the fetch of [loadImages] fails, the image list and the
    displayed images are emptied and the loading flag is lowered, but no
    notification is shown: the notifications on the page are those from
    before the call. The timers, and with them the next auto-refresh poll,
    are untouched. *)
Theorem loadImages_failure_shows_no_notification (st : App) :
  let st' := loadImages H FetchFailed st in
  images st' = []
  /\ displayedImages st' = []
  /\ loading st' = false
  /\ notifications st' = notifications st
  /\ activeIntervals st' = activeIntervals st.
Proof. repeat split. Qed.



End Loading.

(** ** Grouping by month *)

Section Grouping.

Context (H : Host).

Implicit Types (groups : gmap (list N) MonthGroup) (image img : Image).

Lemma totalCount_insert groups (k : jsstring) (g : MonthGroup) :
  totalCount (<[k := g]> groups) = count g + totalCount (delete k groups).
Proof.
  unfold totalCount. rewrite <- insert_delete_eq.
  apply (map_fold_insert_L (fun _ g acc => count g + acc)).
  - intros; lia.
  - apply lookup_delete_eq.
Qed.

Lemma totalCount_lookup groups (k : jsstring) :
  totalCount groups
  = from_option count 0 (groups !! k) + totalCount (delete k groups).
Proof.
  destruct (groups !! k) as [g |] eqn:E; simpl.
  - rewrite <- (insert_delete_id groups k g E) at 1. rewrite totalCount_insert.
    by rewrite delete_delete_eq.
  - by rewrite delete_id.
Qed.

(** One step of the loop files the image under its month and touches no
    other group. *)
Lemma addToGroup_lookup groups image (k : jsstring) :
  addToGroup H groups image !! k
  = if decide (monthYearOf H image = k)
    then Some (pushPhoto image
                 (default (newGroup H (newDate H (timestamp image))) (groups !! k)))
    else groups !! k.
Proof.
  unfold addToGroup, monthYearOf. rewrite lookup_alter.
  destruct (decide (monthYearString H (newDate H (timestamp image)) = k))
    as [-> | Hne].
  - destruct (groups !! k) as [g |] eqn:E; simpl.
    + by rewrite E.
    + by rewrite lookup_insert_eq.
  - destruct (groups !! _); [done |]. by rewrite lookup_insert_ne.
Qed.

Lemma addToGroup_insert groups image :
  addToGroup H groups image
  = <[monthYearOf H image :=
        pushPhoto image
          (default (newGroup H (newDate H (timestamp image)))
                   (groups !! monthYearOf H image))]> groups.
Proof.
  apply map_eq. intros k. rewrite addToGroup_lookup, lookup_insert.
  by destruct (decide (monthYearOf H image = k)) as [-> |].
Qed.

Lemma addToGroup_totalCount groups image :
  totalCount (addToGroup H groups image) = totalCount groups + 1.
Proof.
  rewrite addToGroup_insert, totalCount_insert.
  rewrite (totalCount_lookup groups (monthYearOf H image)).
  destruct (groups !! monthYearOf H image); simpl; lia.
Qed.

Lemma grouped_step (l : list Image) groups image :
  grouped H l groups -> grouped H (l ++ [image]) (addToGroup H groups image).
Proof.
  intros Hg k. specialize (Hg k). rewrite addToGroup_lookup.
  rewrite List.filter_app. simpl. unfold inMonth at 2 4.
  destruct (decide (monthYearOf H image = k)) as [Hk | Hk].
  - rewrite (bool_decide_eq_true_2 _ Hk).
    destruct (groups !! k) as [g |]; simpl.
    + destruct Hg as (Hp & _ & Hc). rewrite Hp. split; [done |].
      split; [by destruct (List.filter _ l) |].
      unfold len in *. rewrite length_app, <- Hp. simpl. lia.
    + rewrite Hg. by repeat split.
  - rewrite (bool_decide_eq_false_2 _ Hk). by rewrite app_nil_r.
Qed.

Lemma foldl_addToGroup (l : list Image) :
  grouped H l (foldl (addToGroup H) ∅ l)
  /\ totalCount (foldl (addToGroup H) ∅ l) = len l.
Proof.
  induction l as [| image l [IHg IHc]] using rev_ind.
  - split; [| reflexivity]. intros k. simpl. by rewrite lookup_empty.
  - rewrite foldl_snoc. split; [by apply grouped_step |].
    rewrite addToGroup_totalCount, IHc. unfold len. rewrite length_app.
    simpl. lia.
Qed.

(** C7. [groupImagesByMonth] partitions the image list by calendar month:
    each group holds, in order, exactly the images of its month and at least
    one, its [count] is the length of its [photos]; every image is in the
    group of its own month and in no other; and the counts of all groups add
    up to the number of images. The image list itself is unchanged. *)
Theorem groupImagesByMonth_partitions (st : App) :
  let groups := groupedImages (groupImagesByMonth H st) in
  (forall (k : jsstring) (g : MonthGroup),
      groups !! k = Some g ->
      photos g = List.filter (inMonth H k) (images st)
      /\ photos g <> []
      /\ count g = len (photos g))
  /\ (forall img, In img (images st) ->
        exists g, groups !! monthYearOf H img = Some g /\ In img (photos g))
  /\ (forall (k : jsstring) (g : MonthGroup) img,
        groups !! k = Some g -> In img (photos g) -> k = monthYearOf H img)
  /\ totalCount groups = len (images st)
  /\ images (groupImagesByMonth H st) = images st.
Proof.
  intros groups. subst groups.
  change (groupedImages (groupImagesByMonth H st))
    with (foldl (addToGroup H) ∅ (images st)).
  destruct (foldl_addToGroup (images st)) as [Hg Hc].
  split; [| split; [| split; [| split]]].
  - intros k g Hk. specialize (Hg k). by rewrite Hk in Hg.
  - intros img Hin. specialize (Hg (monthYearOf H img)).
    assert (Hf : In img (List.filter (inMonth H (monthYearOf H img)) (images st))).
    { apply filter_In. split; [exact Hin |]. by apply bool_decide_eq_true_2. }
    destruct (foldl (addToGroup H) ∅ (images st) !! monthYearOf H img) as [g |].
    + exists g. destruct Hg as (-> & _). by split.
    + rewrite Hg in Hf. destruct Hf.
  - intros k g img Hk Hin. specialize (Hg k). rewrite Hk in Hg.
    destruct Hg as (Hp & _). rewrite Hp in Hin.
    apply filter_In in Hin as [_ Hin]. by apply bool_decide_eq_true_1 in Hin.
  - exact Hc.
  - reflexivity.
Qed.

End Grouping.

(** ** Lightbox navigation *)

Lemma imageAt_in_range (l : list Image) (i : Z) :
  0 <= i < len l -> exists image, imageAt l i = Rec image /\ index l i = Some image.
Proof.
  intros [Hlo Hhi]. unfold imageAt, index.
  destruct (Z.ltb_spec i 0); [lia |].
  destruct (lookup_lt_is_Some_2 l (Z.to_nat i)) as [image Himg].
  { unfold len in Hhi. lia. }
  exists image. by rewrite Himg.
Qed.

Lemma nextImage_moves (st : App) :
  currentIndex st < len (images st) - 1 ->
  nextImage st
  = set_currentImage (imageAt (images st) (currentIndex st + 1))
      (set_currentIndex (currentIndex st + 1) st).
Proof.
  intros Hlt. unfold nextImage.
  by destruct (Z.ltb_spec (currentIndex st) (len (images st) - 1)); [| lia].
Qed.

Lemma nextImage_stays (st : App) :
  len (images st) - 1 <= currentIndex st -> nextImage st = st.
Proof.
  intros Hge. unfold nextImage.
  by destruct (Z.ltb_spec (currentIndex st) (len (images st) - 1)); [lia |].
Qed.

Lemma prevImage_moves (st : App) :
  0 < currentIndex st ->
  prevImage st
  = set_currentImage (imageAt (images st) (currentIndex st - 1))
      (set_currentIndex (currentIndex st - 1) st).
Proof.
  intros Hlt. unfold prevImage.
  by destruct (Z.gtb_spec (currentIndex st) 0); [| lia].
Qed.

Lemma prevImage_stays (st : App) : currentIndex st <= 0 -> prevImage st = st.
Proof.
  intros Hge. unfold prevImage.
  by destruct (Z.gtb_spec (currentIndex st) 0); [lia |].
Qed.

(** C9 (amended). In a state with a non-empty image list and
    [0 <= currentIndex < images.length], [nextImage] and [prevImage] keep the
    index within these bounds and leave the image list alone. A call that
    moves the index (by one, below the last index for [nextImage], above 0
    for [prevImage]) sets [currentImage] to the record at the new index; at
    the last index [nextImage] changes nothing, and at index 0 [prevImage]
    changes nothing. Hence [currentImage] is [images[currentIndex]] after a
    call that moved the index, or when it already was before the call. *)
Theorem lightbox_navigation_in_bounds (st : App) :
  images st <> [] ->
  0 <= currentIndex st < len (images st) ->
  let synced s := currentImage s = imageAt (images s) (currentIndex s) in
  (0 <= currentIndex (nextImage st) < len (images (nextImage st))
   /\ 0 <= currentIndex (prevImage st) < len (images (prevImage st)))
  /\ (images (nextImage st) = images st /\ images (prevImage st) = images st)
  /\ (currentIndex st < len (images st) - 1 ->
      currentIndex (nextImage st) = currentIndex st + 1
      /\ synced (nextImage st)
      /\ exists image, currentImage (nextImage st) = Rec image)
  /\ (currentIndex st = len (images st) - 1 -> nextImage st = st)
  /\ (0 < currentIndex st ->
      currentIndex (prevImage st) = currentIndex st - 1
      /\ synced (prevImage st)
      /\ exists image, currentImage (prevImage st) = Rec image)
  /\ (currentIndex st = 0 -> prevImage st = st)
  /\ (synced st -> synced (nextImage st) /\ synced (prevImage st)).
Proof.
  intros Hne [Hlo Hhi] synced.
  assert (Hnext : currentIndex st < len (images st) - 1 ->
                  currentIndex (nextImage st) = currentIndex st + 1
                  /\ images (nextImage st) = images st
                  /\ synced (nextImage st)
                  /\ exists image, currentImage (nextImage st) = Rec image).
  { intros Hlt. rewrite (nextImage_moves st Hlt). unfold synced. simpl.
    repeat split.
    destruct (imageAt_in_range (images st) (currentIndex st + 1)) as (image & -> & _);
      [lia | by exists image]. }
  assert (Hprev : 0 < currentIndex st ->
                  currentIndex (prevImage st) = currentIndex st - 1
                  /\ images (prevImage st) = images st
                  /\ synced (prevImage st)
                  /\ exists image, currentImage (prevImage st) = Rec image).
  { intros Hlt. rewrite (prevImage_moves st Hlt). unfold synced. simpl.
    repeat split.
    destruct (imageAt_in_range (images st) (currentIndex st - 1)) as (image & -> & _);
      [lia | by exists image]. }
  assert (Hlast : currentIndex st = len (images st) - 1 -> nextImage st = st)
    by (intros Heq; apply nextImage_stays; lia).
  assert (Hfirst : currentIndex st = 0 -> prevImage st = st)
    by (intros Heq; apply prevImage_stays; lia).
  assert (Hcn : currentIndex st < len (images st) - 1
                \/ currentIndex st = len (images st) - 1) by lia.
  assert (Hcp : 0 < currentIndex st \/ currentIndex st = 0) by lia.
  split; [split |]; [| | split; [split |]].
  - destruct Hcn as [Hlt | Heq].
    + destruct (Hnext Hlt) as (-> & -> & _). lia.
    + rewrite (Hlast Heq). lia.
  - destruct Hcp as [Hlt | Heq].
    + destruct (Hprev Hlt) as (-> & -> & _). lia.
    + rewrite (Hfirst Heq). lia.
  - destruct Hcn as [Hlt | Heq]; [apply (Hnext Hlt) | by rewrite (Hlast Heq)].
  - destruct Hcp as [Hlt | Heq]; [apply (Hprev Hlt) | by rewrite (Hfirst Heq)].
  - split; [intros Hlt; destruct (Hnext Hlt) as (? & _ & ? & ?); by repeat split |].
    split; [exact Hlast |].
    split; [intros Hlt; destruct (Hprev Hlt) as (? & _ & ? & ?); by repeat split |].
    split; [exact Hfirst |].
    intros Hs. split.
    + destruct Hcn as [Hlt | Heq]; [apply (Hnext Hlt) | by rewrite (Hlast Heq)].
    + destruct Hcp as [Hlt | Heq]; [apply (Hprev Hlt) | by rewrite (Hfirst Heq)].
Qed.

(** C9, the claim as stated fails. The lightbox is open on the newest of two
    photos when an auto-refresh poll delivers a third, newer one: the index
    is 0 and within bounds, [prevImage] changes nothing, and [currentImage]
    is still the photo that was opened, not [images[0]]. *)
Lemma prevImage_keeps_stale_currentImage :
  let opened := photo 2 "Bath time" (2 * UtcHost.msPerDay) in
  let st := autoRefreshTick UtcHost.host (FetchOk (Some family))
              (openLightbox opened (loaded (drop 1 family))) in
  images st <> []
  /\ 0 <= currentIndex st < len (images st)
  /\ currentImage (prevImage st) = Rec opened
  /\ imageAt (images (prevImage st)) (currentIndex (prevImage st))
     = Rec (photo 3 "first steps" (3 * UtcHost.msPerDay)).
Proof. vm_compute. repeat split; discriminate. Qed.

(** C9 in the middle of an album of three, where both calls move. *)
Lemma lightbox_navigation_in_bounds_witness :
  let st := openLightbox (photo 2 "Gaurav" (2 * UtcHost.msPerDay))
              (loaded (album 3)) in
  (images st <> [] /\ 0 <= currentIndex st < len (images st))
  /\ currentIndex (nextImage st) = 2
  /\ currentIndex (prevImage st) = 0
  /\ currentImage (nextImage st) = Rec (photo 1 "Gaurav" UtcHost.msPerDay).
Proof.
  assert (Hne : images (openLightbox (photo 2 "Gaurav" (2 * UtcHost.msPerDay))
                          (loaded (album 3))) <> [])
    by (vm_compute; discriminate).
  assert (Hb : 0 <= currentIndex (openLightbox (photo 2 "Gaurav" (2 * UtcHost.msPerDay))
                                    (loaded (album 3)))
               < len (images (openLightbox (photo 2 "Gaurav" (2 * UtcHost.msPerDay))
                                (loaded (album 3)))))
    by (vm_compute; split; [discriminate | reflexivity]).
  pose proof (lightbox_navigation_in_bounds _ Hne Hb) as Hthm.
  cbv zeta in Hthm. destruct Hthm as (_ & _ & Hn & _ & Hp & _).
  split; [by split |].
  destruct Hn as (Hn1 & Hn2 & _); [vm_compute; reflexivity |].
  destruct Hp as (Hp1 & _); [vm_compute; reflexivity |].
  split; [rewrite Hn1; vm_compute; reflexivity |].
  split; [rewrite Hp1; vm_compute; reflexivity |].
  rewrite Hn2. vm_compute. reflexivity.
Defined.

(** ** Slideshow *)

Lemma startSlideshow_empty (st : App) : len (images st) = 0 -> startSlideshow st = st.
Proof. intros Hz. unfold startSlideshow. by rewrite Hz. Qed.

Lemma clearInterval_not_running (id : nat) (cb : TimerCallback) (st : App) :
  (id, cb) ∉ activeIntervals (clearInterval id st).
Proof.
  unfold clearInterval. simpl. rewrite list_elem_of_In, filter_In. simpl.
  intros [_ Hneq]. by rewrite Nat.eqb_refl in Hneq.
Qed.

Lemma stopSlideshow_fields (st : App) :
  let st' := stopSlideshow st in
  slideshowActive st' = false
  /\ slideshowInterval st' = None
  /\ images st' = images st
  /\ currentIndex st' = currentIndex st
  /\ currentImage st' = currentImage st.
Proof.
  unfold stopSlideshow. simpl.
  destruct (slideshowInterval st) eqn:E; simpl; rewrite ?E; by repeat split.
Qed.

(** What [stopSlideshow] leaves of a slideshow whose timer is [id]. *)
Lemma stopSlideshow_stops (id : nat) (st : App) :
  slideshowInterval st = Some id ->
  let st' := stopSlideshow st in
  slideshowActive st' = false
  /\ slideshowInterval st' = None
  /\ timerRunning (id, SlideshowTimer) st' = false
  /\ images st' = images st
  /\ currentIndex st' = currentIndex st
  /\ currentImage st' = currentImage st
  /\ nextTimerId st' = nextTimerId st.
Proof.
  intros Hid. unfold stopSlideshow. simpl. rewrite Hid. simpl.
  repeat split. apply bool_decide_eq_false_2.
  apply (clearInterval_not_running id SlideshowTimer (set_slideshowActive false st)).
Qed.

(** One tick: the index moves by one below the last index and stays
    otherwise, and a tick that ends on the last index stops the slideshow. *)
Lemma slideshowTick_spec (st : App) :
  let st' := slideshowTick st in
  images st' = images st
  /\ (currentIndex st < len (images st) - 1 ->
      currentIndex st' = currentIndex st + 1)
  /\ (len (images st) - 1 <= currentIndex st ->
      currentIndex st' = currentIndex st /\ currentImage st' = currentImage st)
  /\ (currentIndex st' = len (images st) - 1 ->
      slideshowActive st' = false /\ slideshowInterval st' = None
      /\ forall id, slideshowInterval st = Some id ->
                    timerRunning (id, SlideshowTimer) st' = false)
  /\ (currentIndex st' <> len (images st) - 1 ->
      slideshowActive st' = slideshowActive st
      /\ slideshowInterval st' = slideshowInterval st
      /\ activeIntervals st' = activeIntervals st).
Proof.
  intros st'. subst st'. unfold slideshowTick.
  assert (Hn : images (nextImage st) = images st
               /\ slideshowInterval (nextImage st) = slideshowInterval st
               /\ slideshowActive (nextImage st) = slideshowActive st
               /\ activeIntervals (nextImage st) = activeIntervals st
               /\ (currentIndex st < len (images st) - 1 ->
                   currentIndex (nextImage st) = currentIndex st + 1)
               /\ (len (images st) - 1 <= currentIndex st -> nextImage st = st)).
  { destruct (Z.lt_ge_cases (currentIndex st) (len (images st) - 1)) as [Hlt | Hge].
    - rewrite (nextImage_moves st Hlt). simpl. repeat split; lia.
    - rewrite (nextImage_stays st Hge). repeat split; lia. }
  destruct Hn as (Hi & Hsi & Hsa & Hai & Hmove & Hstay).
  rewrite Hi.
  destruct (Z.eqb_spec (currentIndex (nextImage st)) (len (images st) - 1))
    as [Heq | Hne].
  - destruct (stopSlideshow_fields (nextImage st)) as (Hs1 & Hs2 & Hfi & Hfc & Hfm).
    assert (Hstop : slideshowActive (stopSlideshow (nextImage st)) = false
                    /\ slideshowInterval (stopSlideshow (nextImage st)) = None)
      by (by split).
    rewrite Hfi, Hfc, Hfm, Hi.
    split; [reflexivity |]. split; [exact Hmove |].
    split; [intros Hge; by rewrite (Hstay Hge) |].
    split; [| intros Hne; by destruct Hne].
    intros _. split; [apply Hstop |]. split; [apply Hstop |].
    intros id Hid. rewrite <- Hsi in Hid.
    apply (stopSlideshow_stops id (nextImage st) Hid).
  - split; [exact Hi |]. split; [exact Hmove |].
    split; [intros Hge; by rewrite (Hstay Hge) |].
    split; [intros Heq; by destruct Hne |].
    intros _. by repeat split.
Qed.

(** The state of a slideshow run after [k] intervals, for [n >= 1] images:
    before interval [max 1 (n - 1)] it is running at index [k]; from then on
    it is stopped at the last index, with its timer cleared. *)
Lemma slideshowRun_state (st : App) (k : nat) :
  images st <> [] ->
  let n := len (images st) in
  let id := nextTimerId st in
  let s := slideshowRun k st in
  images s = images st
  /\ currentImage s = imageAt (images st) (currentIndex s)
  /\ (Z.of_nat k < Z.max 1 (n - 1) ->
      currentIndex s = Z.of_nat k /\ slideshowActive s = true
      /\ slideshowInterval s = Some id
      /\ timerRunning (id, SlideshowTimer) s = true)
  /\ (Z.max 1 (n - 1) <= Z.of_nat k ->
      currentIndex s = n - 1 /\ slideshowActive s = false
      /\ timerRunning (id, SlideshowTimer) s = false).
Proof.
  intros Hne n id s. subst s.
  assert (Hn : 1 <= n).
  { subst n. pose proof (len_nonneg (images st)).
    destruct (Z.eq_dec (len (images st)) 0) as [Hz | Hz]; [| lia].
    by apply len_nil_iff in Hz. }
  induction k as [| k IH].
  - unfold slideshowRun. simpl. unfold startSlideshow.
    destruct (Z.eqb_spec (len (images st)) 0) as [Hz | Hz]; [subst n; lia |].
    simpl. split; [reflexivity |]. split; [reflexivity |].
    split; [| lia]. intros _. repeat split.
    apply bool_decide_eq_true_2. unfold setInterval. simpl.
    apply elem_of_app. right. by apply list_elem_of_singleton.
  - destruct IH as (Hi & Hc & Hrun & Hdone).
    unfold slideshowRun in *. rewrite Nat.iter_succ.
    set (s := Nat.iter k (slideshowTimerFires (nextTimerId st)) (startSlideshow st)) in *.
    unfold slideshowTimerFires. fold id.
    destruct (Z.lt_ge_cases (Z.of_nat k) (Z.max 1 (n - 1))) as [Hlt | Hge].
    + destruct (Hrun Hlt) as (Hidx & Hact & Hint & Htimer). rewrite Htimer.
      destruct (slideshowTick_spec s) as (Ti & Tmove & Tstay & Tstop & Tgo).
      rewrite Hi in Tmove, Tstay, Tstop, Tgo. fold n in Tmove, Tstay, Tstop, Tgo.
      split; [by rewrite Ti |].
      destruct (Z.lt_ge_cases (currentIndex s) (n - 1)) as [Hbelow | Hlast].
      * specialize (Tmove Hbelow).
        assert (Hci : currentImage (slideshowTick s)
                      = imageAt (images st) (currentIndex (slideshowTick s))).
        { unfold slideshowTick. rewrite (nextImage_moves s) by (rewrite Hi; exact Hbelow).
          simpl. rewrite Hi.
          destruct (_ =? _); [| reflexivity].
          destruct (stopSlideshow_fields
                      (set_currentImage (imageAt (images st) (currentIndex s + 1))
                         (set_currentIndex (currentIndex s + 1) s)))
            as (_ & _ & _ & -> & ->).
          reflexivity. }
        split; [exact Hci |]. split.
        -- intros Hk. destruct Tgo as (Ga & Gi & Gt); [lia |].
           rewrite Tmove, Ga, Gi. unfold timerRunning in *. rewrite Gt.
           repeat split; [lia | exact Hact | exact Hint | exact Htimer].
        -- intros Hk. destruct Tstop as (Sa & _ & St); [lia |].
           repeat split; [lia | exact Sa | by apply St].
      * destruct (Tstay Hlast) as [Tidx Timg].
        split; [by rewrite Timg, Tidx |]. split; [lia |].
        intros _. destruct Tstop as (Sa & _ & St); [lia |].
        repeat split; [lia | exact Sa | by apply St].
    + destruct (Hdone Hge) as (Hidx & Hact & Htimer). rewrite Htimer.
      split; [exact Hi |]. split; [exact Hc |]. split; [lia |].
      intros _. by repeat split.
Qed.

Lemma findIndexFrom_bound {A : Type} (f : A -> bool) (xs : list A) (i : Z) :
  findIndexFrom f xs i = -1 \/ i <= findIndexFrom f xs i < i + len xs.
Proof.
  revert i. induction xs as [| x xs IH]; intros i; simpl; [by left |].
  unfold len. simpl length.
  destruct (f x); [right; lia |].
  destruct (IH (i + 1)) as [Hnone | Hin]; [by left |].
  right. unfold len in Hin. lia.
Qed.

Section SlideshowEvents.

Context (H : Host).

Lemma updatePagination_slideFields (st : App) :
  slideFields (updatePagination H st) = slideFields st.
Proof. unfold updatePagination, slideFields. simpl. by destruct (_ >? _). Qed.

Lemma slideFields_set_loading (v : bool) (st : App) :
  slideFields (set_loading v st) = slideFields st.
Proof. reflexivity. Qed.

Lemma slideFields_showNotification (m : Message) (t : NotificationType) (st : App) :
  slideFields (showNotification m t st) = slideFields st.
Proof. reflexivity. Qed.

Lemma loadImages_slideFields (r : FetchResult) (st : App) :
  slideFields (loadImages H r st) = slideFields st.
Proof.
  destruct r as [d |]; [| reflexivity].
  rewrite loadImages_ok_unfold, slideFields_set_loading.
  by rewrite updatePagination_slideFields.
Qed.

Lemma autoRefreshTick_slideFields (r : FetchResult) (st : App) :
  slideFields (autoRefreshTick H r st) = slideFields st.
Proof.
  unfold autoRefreshTick. destruct (_ >? _); [| apply loadImages_slideFields].
  rewrite slideFields_showNotification. apply loadImages_slideFields.
Qed.

Lemma slideshowBounded_same (st st' : App) :
  slideFields st' = slideFields st -> images st' = images st ->
  slideshowBounded st -> slideshowBounded st'.
Proof.
  unfold slideFields, slideshowBounded. intros Heq Hi.
  injection Heq as -> ->. by rewrite Hi.
Qed.

Lemma slideshowBounded_nextImage (st : App) :
  slideshowBounded st -> slideshowBounded (nextImage st).
Proof.
  intros Hb. destruct (Z.lt_ge_cases (currentIndex st) (len (images st) - 1))
    as [Hlt | Hge].
  - rewrite (nextImage_moves st Hlt). intros _. simpl. lia.
  - by rewrite (nextImage_stays st Hge).
Qed.

Lemma slideshowBounded_stopSlideshow (st : App) : slideshowBounded (stopSlideshow st).
Proof.
  intros Hact. destruct (stopSlideshow_fields st) as (Hoff & _).
  congruence.
Qed.

(** An event that leaves the image list as it is keeps the index of an
    active slideshow at or below the last index. *)
Lemma step_slideshowBounded (st st' : App) :
  step H st st' -> images st' = images st ->
  slideshowBounded st -> slideshowBounded st'.
Proof.
  intros Hstep Hi Hb. destruct Hstep.
  - apply (slideshowBounded_same st); [apply loadImages_slideFields | done | done].
  - apply (slideshowBounded_same st); [| done | done]. unfold refreshGallery.
    rewrite slideFields_showNotification. apply loadImages_slideFields.
  - exact Hb.
  - apply (slideshowBounded_same st); [| done | done]. unfold searchPhotos.
    by rewrite updatePagination_slideFields.
  - apply (slideshowBounded_same st); [| done | done]. unfold clearSearch, searchPhotos.
    by rewrite updatePagination_slideFields.
  - apply (slideshowBounded_same st); [| done | done]. unfold goToPage.
    destruct (_ && _); [by rewrite updatePagination_slideFields | done].
  - apply (slideshowBounded_same st); [| done | done]. unfold toggleViewMode.
    by rewrite updatePagination_slideFields.
  - intros _. unfold openLightbox. simpl. unfold findIndex.
    destruct (findIndexFrom_bound (fun img => strictEq (img_id img) (img_id image))
                (images st) 0) as [-> | Hin].
    + pose proof (len_nonneg (images st)). lia.
    + lia.
  - exact Hb.
  - by apply slideshowBounded_nextImage.
  - destruct (Z.lt_ge_cases 0 (currentIndex st)) as [Hpos | Hzero].
    + rewrite (prevImage_moves st Hpos). intros Hact. simpl in *.
      specialize (Hb Hact). lia.
    + by rewrite (prevImage_stays st Hzero).
  - apply (slideshowBounded_same st); [| done | done].
    unfold toggleSelectionMode. simpl. by destruct (negb (negb _)).
  - apply (slideshowBounded_same st); [| done | done].
    unfold togglePhotoSelection. by destruct (_ >? _).
  - apply (slideshowBounded_same st); [| done | done].
    unfold selectAllVisible. generalize (displayedImages st) as shown.
    intros shown. clear Hi Hb. revert st.
    induction shown as [| photo shown IH]; intros st; [reflexivity |].
    simpl. rewrite IH. by destruct (negb _).
  - exact Hb.
  - unfold startSlideshow. destruct (Z.eqb_spec (len (images st)) 0); [exact Hb |].
    intros _. simpl. pose proof (len_nonneg (images st)). lia.
  - apply slideshowBounded_stopSlideshow.
  - exact Hb.
  - unfold slideshowTimerFires. destruct (timerRunning _ _); [| exact Hb].
    unfold slideshowTick. destruct (_ =? _).
    + apply slideshowBounded_stopSlideshow.
    + by apply slideshowBounded_nextImage.
  - unfold autoRefreshTimerFires in *. destruct (timerRunning _ _); [| exact Hb].
    apply (slideshowBounded_same st); [apply autoRefreshTick_slideFields | done | done].
Qed.

Lemma duringSlideshow_bounded (st s : App) :
  duringSlideshow H st s -> slideshowBounded s.
Proof.
  induction 1 as [Hne | s s' _ IH Hstep Hi].
  - destruct (Z.eq_dec (len (images st)) 0) as [Hz | Hz];
      [by apply len_nil_iff in Hz |].
    unfold startSlideshow. destruct (Z.eqb_spec (len (images st)) 0); [done |].
    intros _. simpl. pose proof (len_nonneg (images st)). lia.
  - by apply (step_slideshowBounded s s').
Qed.

(** C6 (amended). Starting a slideshow with an empty image list changes
    nothing. A tick of the slideshow timer advances [currentIndex] by exactly
    one when it is below the last index and leaves it unchanged otherwise
    (as the one tick of a single-image slideshow does), and a tick that ends
    on the last index stops the slideshow and clears its timer. In a run of
    nothing but the slideshow's own ticks on [n >= 1] images, the index
    after [k] intervals is [min k (n - 1)], the slideshow is active exactly
    until interval [max 1 (n - 1)], and its timer runs exactly while it is
    active. Whatever other events happen in between, as long as none of them
    replaces the image list by a different one, [currentIndex] does not
    exceed [images.length - 1] while the slideshow is active. *)
Theorem slideshow_advances_and_stops (st : App) :
  (images st = [] -> startSlideshow st = st)
  /\ (let st' := slideshowTick st in
      (currentIndex st < len (images st) - 1 ->
       currentIndex st' = currentIndex st + 1)
      /\ (len (images st) - 1 <= currentIndex st ->
          currentIndex st' = currentIndex st)
      /\ (currentIndex st' = len (images st) - 1 ->
          slideshowActive st' = false
          /\ forall id, slideshowInterval st = Some id ->
                        timerRunning (id, SlideshowTimer) st' = false))
  /\ (images st <> [] ->
      forall k : nat,
        let n := len (images st) in
        let s := slideshowRun k st in
        currentIndex s = Z.min (Z.of_nat k) (n - 1)
        /\ 0 <= currentIndex s <= n - 1
        /\ currentImage s = imageAt (images s) (currentIndex s)
        /\ (slideshowActive s = true <-> Z.of_nat k < Z.max 1 (n - 1))
        /\ timerRunning (nextTimerId st, SlideshowTimer) s = slideshowActive s)
  /\ (forall s, duringSlideshow H st s ->
        images s = images st
        /\ (slideshowActive s = true -> currentIndex s <= len (images s) - 1)).
Proof.
  split; [| split; [| split]].
  - intros Hnil. apply startSlideshow_empty. by rewrite Hnil.
  - destruct (slideshowTick_spec st) as (_ & Tmove & Tstay & Tstop & _).
    split; [exact Tmove |]. split; [intros Hge; apply (Tstay Hge) |].
    intros Heq. destruct (Tstop Heq) as (Sa & _ & St). by split.
  - intros Hne k n s.
    assert (Hn : 1 <= n).
    { subst n. pose proof (len_nonneg (images st)).
      destruct (Z.eq_dec (len (images st)) 0) as [Hz | Hz]; [| lia].
      by apply len_nil_iff in Hz. }
    destruct (slideshowRun_state st k Hne) as (Hi & Hc & Hrun & Hdone).
    fold n in Hrun, Hdone. fold s in Hi, Hc, Hrun, Hdone.
    destruct (Z.lt_ge_cases (Z.of_nat k) (Z.max 1 (n - 1))) as [Hlt | Hge].
    + destruct (Hrun Hlt) as (Hidx & Hact & _ & Htimer).
      rewrite Hi, Hidx, Hact, Htimer. rewrite <- Hidx, <- Hc, Hidx.
      repeat split; lia.
    + destruct (Hdone Hge) as (Hidx & Hact & Htimer).
      rewrite Hi, Hidx, Hact, Htimer. rewrite <- Hidx, <- Hc, Hidx.
      repeat split; try lia; discriminate.
  - intros s Hs. split; [| by apply (duringSlideshow_bounded st)].
    induction Hs as [Hne | s s' _ IH _ Hi]; [| congruence].
    unfold startSlideshow. by destruct (_ =? _).
Qed.

End SlideshowEvents.

(** C6, the claim as stated fails, twice. A slideshow on a single image is
    active after [startSlideshow], and its first tick does not advance
    [currentIndex]: it stays 0 and the slideshow stops. And on a page with
    auto-refresh (timer 1) and three images, a slideshow (timer 2) that has
    ticked once is at index 1 when a poll fails: the image list is emptied,
    the slideshow stays active with [currentIndex] 1 above
    [images.length - 1 = -1], and its further ticks neither move nor stop
    it. *)
Lemma slideshow_tick_stalls_and_reload_breaks_bound :
  (let st := loaded (album 1) in
   let started := startSlideshow st in
   let ticked := slideshowTimerFires (nextTimerId st) started in
   slideshowActive started = true
   /\ timerRunning (nextTimerId st, SlideshowTimer) started = true
   /\ currentIndex started = 0
   /\ currentIndex ticked = 0
   /\ slideshowActive ticked = false)
  /\ (let started := startSlideshow (setupAutoRefresh (loaded (album 3))) in
      let ticked := slideshowTimerFires 2 started in
      let polled := autoRefreshTimerFires UtcHost.host 1 FetchFailed ticked in
      let later := Nat.iter 5 (slideshowTimerFires 2) polled in
      reachable UtcHost.host polled
      /\ (slideshowActive ticked = true /\ currentIndex ticked = 1)
      /\ (slideshowActive polled = true /\ currentIndex polled = 1
          /\ len (images polled) - 1 = -1)
      /\ (slideshowActive later = true /\ currentIndex later = 1
          /\ timerRunning (2%nat, SlideshowTimer) later = true)).
Proof.
  split; [vm_compute; by repeat split |].
  intros started ticked polled later.
  split; [| vm_compute; by repeat split].
  eapply reachable_step; [| apply step_autoRefreshTimer].
  eapply reachable_step; [| apply step_slideshowTimer].
  eapply reachable_step; [| apply step_startSlideshow].
  eapply reachable_step; [| apply step_setupAutoRefresh].
  eapply reachable_step; [apply reachable_initial | apply step_loadImages].
Qed.

(** C6 on an album of three: the index after one interval is 1 and the
    slideshow is still active; after two and after five intervals it is 2 and
    the slideshow has stopped; and with the lightbox reopened on the newest
    photo after the first interval, the slideshow is within bounds. *)
Lemma slideshow_advances_and_stops_witness :
  let st := loaded (album 3) in
  let reopened := openLightbox (photo 3 "Gaurav" (3 * UtcHost.msPerDay))
                    (slideshowRun 1 st) in
  images st <> []
  /\ (currentIndex (slideshowRun 1 st) = 1
      /\ slideshowActive (slideshowRun 1 st) = true)
  /\ (currentIndex (slideshowRun 2 st) = 2
      /\ slideshowActive (slideshowRun 2 st) = false)
  /\ currentIndex (slideshowRun 5 st) = 2
  /\ (duringSlideshow UtcHost.host st reopened
      /\ currentIndex reopened <= len (images reopened) - 1).
Proof.
  intros st reopened.
  assert (Hne : images st <> []) by (vm_compute; discriminate).
  destruct (slideshow_advances_and_stops UtcHost.host st) as (_ & _ & Hrun & Hduring).
  specialize (Hrun Hne). cbv zeta in Hrun.
  split; [exact Hne |].
  destruct (Hrun 1%nat) as (H1 & _ & _ & [_ A1] & _).
  destruct (Hrun 2%nat) as (H2 & _).
  destruct (Hrun 5%nat) as (H5 & _).
  split; [split; [rewrite H1; vm_compute; reflexivity
                 | apply A1; vm_compute; reflexivity] |].
  split; [split; [rewrite H2; vm_compute; reflexivity
                 | vm_compute; reflexivity] |].
  split; [rewrite H5; vm_compute; reflexivity |].
  assert (Hd : duringSlideshow UtcHost.host st reopened).
  { eapply duringSlideshow_step;
      [| apply step_openLightbox | vm_compute; reflexivity].
    eapply duringSlideshow_step;
      [apply duringSlideshow_start, Hne
      | apply (step_slideshowTimer UtcHost.host (nextTimerId st))
      | vm_compute; reflexivity]. }
  split; [exact Hd |].
  destruct (Hduring reopened Hd) as [_ Hb]. apply Hb. vm_compute. reflexivity.
Defined.

(** ** Photo selection *)

Section Selection.

Implicit Types (photo p q : Image) (l : list Image).

Lemma sameId_refl photo : sameId photo photo = true.
Proof. by apply bool_decide_eq_true_2. Qed.

Lemma sameId_true photo p : sameId photo p = true <-> img_id p = img_id photo.
Proof. unfold sameId, strictEq. apply bool_decide_eq_true. Qed.

(** Selected means that the id occurs among the selected ids. *)
Lemma existsb_sameId photo l :
  existsb (sameId photo) l = true <-> In (img_id photo) (map img_id l).
Proof.
  rewrite existsb_exists, in_map_iff. split.
  - intros (p & Hin & Hp). exists p. by apply sameId_true in Hp.
  - intros (p & Hid & Hin). exists p. split; [exact Hin |]. by apply sameId_true.
Qed.

(** [findIndex] and [splice] together remove the first match, if any. *)
Lemma findIndexFrom_spec {A : Type} (f : A -> bool) (xs : list A) (i : Z) :
  0 <= i ->
  if existsb f xs
  then exists k : nat,
         findIndexFrom f xs i = i + Z.of_nat k
         /\ take k xs ++ drop (S k) xs = removeFirst f xs
  else findIndexFrom f xs i = -1.
Proof.
  revert i. induction xs as [| x xs IH]; intros i Hi; simpl; [reflexivity |].
  destruct (f x) eqn:Hfx; simpl.
  - exists 0%nat. split; [lia | reflexivity].
  - specialize (IH (i + 1) ltac:(lia)).
    destruct (existsb f xs); [| exact IH].
    destruct IH as (k & Hk & Hrem). exists (S k). split; [lia |].
    simpl. by rewrite Hrem.
Qed.

Lemma togglePhotoSelection_selected photo (st : App) :
  selectedPhotos (togglePhotoSelection photo st)
  = if isPhotoSelected photo st
    then removeFirst (sameId photo) (selectedPhotos st)
    else selectedPhotos st ++ [photo].
Proof.
  unfold togglePhotoSelection, isPhotoSelected, findIndex.
  pose proof (findIndexFrom_spec (sameId photo) (selectedPhotos st) 0 ltac:(lia))
    as Hspec.
  destruct (existsb (sameId photo) (selectedPhotos st)).
  - destruct Hspec as (k & -> & Hrem).
    destruct (Z.gtb_spec (0 + Z.of_nat k) (-1)); [| lia].
    simpl. unfold splice1. by rewrite Z.add_0_l, Nat2Z.id.
  - rewrite Hspec. reflexivity.
Qed.

Lemma removeFirst_ids photo l :
  uniqueIds l ->
  uniqueIds (removeFirst (sameId photo) l)
  /\ ~ In (img_id photo) (map img_id (removeFirst (sameId photo) l)).
Proof.
  unfold uniqueIds. induction l as [| x l IH]; simpl; intros Hnd.
  - split; [constructor | tauto].
  - apply NoDup_cons in Hnd as [Hx Hnd].
    rewrite list_elem_of_In in Hx.
    destruct (sameId photo x) eqn:Hs.
    + apply sameId_true in Hs. split; [exact Hnd | by rewrite <- Hs].
    + destruct (IH Hnd) as [IHn IHi]. simpl. split.
      * apply NoDup_cons. split; [| exact IHn].
        rewrite list_elem_of_In. intros Hin. apply Hx.
        clear -Hin. induction l as [| y l IHl]; simpl in *; [done |].
        destruct (sameId photo y); simpl in *; tauto.
      * intros [Heq | Hin]; [| tauto].
        assert (sameId photo x = true) by by apply sameId_true.
        congruence.
Qed.

Lemma push_ids photo l :
  uniqueIds l -> existsb (sameId photo) l = false -> uniqueIds (l ++ [photo]).
Proof.
  unfold uniqueIds. intros Hnd Hnot. rewrite map_app. simpl.
  apply NoDup_app. split; [exact Hnd |]. split; [| apply NoDup_singleton].
  intros id Hin Hid. apply list_elem_of_singleton in Hid as ->.
  rewrite list_elem_of_In in Hin. apply existsb_sameId in Hin. congruence.
Qed.

Lemma togglePhotoSelection_uniqueIds photo (st : App) :
  uniqueIds (selectedPhotos st) ->
  uniqueIds (selectedPhotos (togglePhotoSelection photo st)).
Proof.
  intros Hu. rewrite togglePhotoSelection_selected. unfold isPhotoSelected.
  destruct (existsb (sameId photo) (selectedPhotos st)) eqn:E.
  - by apply removeFirst_ids.
  - by apply push_ids.
Qed.

Lemma togglePhotoSelection_flips photo (st : App) :
  uniqueIds (selectedPhotos st) ->
  isPhotoSelected photo (togglePhotoSelection photo st)
  = negb (isPhotoSelected photo st).
Proof.
  intros Hu. unfold isPhotoSelected at 1. rewrite togglePhotoSelection_selected.
  unfold isPhotoSelected.
  destruct (existsb (sameId photo) (selectedPhotos st)) eqn:E; simpl.
  - apply not_true_is_false. rewrite existsb_sameId.
    by apply removeFirst_ids.
  - rewrite existsb_app. simpl. rewrite sameId_refl. by rewrite orb_true_r.
Qed.

Lemma selectAllVisible_uniqueIds (st : App) :
  uniqueIds (selectedPhotos st) -> uniqueIds (selectedPhotos (selectAllVisible st)).
Proof.
  unfold selectAllVisible. generalize (displayedImages st) as shown.
  intros shown. revert st. induction shown as [| photo shown IH]; intros st Hu.
  - exact Hu.
  - simpl. apply IH. unfold isPhotoSelected.
    destruct (existsb (sameId photo) (selectedPhotos st)) eqn:E; simpl.
    + exact Hu.
    + by apply push_ids.
Qed.

(** C10. In a selection with no two photos of the same id (every selection
    the client builds is one, see [reachable_uniqueIds]), a call of
    [togglePhotoSelection(p)] negates [isPhotoSelected(p)], and a second call
    restores it; the selection keeps its ids unique. *)
Theorem togglePhotoSelection_involutive_on_membership (p : Image) (st : App) :
  uniqueIds (selectedPhotos st) ->
  isPhotoSelected p (togglePhotoSelection p st) = negb (isPhotoSelected p st)
  /\ isPhotoSelected p (togglePhotoSelection p (togglePhotoSelection p st))
     = isPhotoSelected p st
  /\ uniqueIds (selectedPhotos (togglePhotoSelection p st)).
Proof.
  intros Hu.
  pose proof (togglePhotoSelection_uniqueIds p st Hu) as Hu'.
  split; [by apply togglePhotoSelection_flips |]. split; [| exact Hu'].
  rewrite (togglePhotoSelection_flips p _ Hu').
  rewrite (togglePhotoSelection_flips p _ Hu).
  apply negb_involutive.
Qed.

End Selection.

Lemma selectedPhotos_set_loading (v : bool) (st : App) :
  selectedPhotos (set_loading v st) = selectedPhotos st.
Proof. reflexivity. Qed.

(** Every method leaves the selected ids unique. *)
Lemma step_uniqueIds (H : Host) (st st' : App) :
  step H st st' ->
  uniqueIds (selectedPhotos st) -> uniqueIds (selectedPhotos st').
Proof.
  assert (Hup : forall s, selectedPhotos (updatePagination H s) = selectedPhotos s).
  { intros s. unfold updatePagination. simpl. by destruct (_ >? _). }
  assert (Hload : forall r s, selectedPhotos (loadImages H r s) = selectedPhotos s).
  { intros [d |] s; [| reflexivity].
    rewrite loadImages_ok_unfold, selectedPhotos_set_loading.
    by rewrite Hup. }
  assert (Hstop : forall s, selectedPhotos (stopSlideshow s) = selectedPhotos s).
  { intros s. unfold stopSlideshow. simpl. by destruct (slideshowInterval s). }
  assert (Htick : forall s, selectedPhotos (slideshowTick s) = selectedPhotos s).
  { intros s. unfold slideshowTick.
    assert (Hn : selectedPhotos (nextImage s) = selectedPhotos s)
      by (unfold nextImage; by destruct (_ <? _)).
    destruct (_ =? _); [by rewrite Hstop |]; exact Hn. }
  assert (Hpoll : forall r s, selectedPhotos (autoRefreshTick H r s) = selectedPhotos s).
  { intros r s. unfold autoRefreshTick. destruct (_ >? _); simpl; apply Hload. }
  intros Hstep Hu. destruct Hstep.
  - by rewrite Hload.
  - unfold refreshGallery. simpl. by rewrite Hload.
  - exact Hu.
  - unfold searchPhotos. by rewrite Hup.
  - unfold clearSearch, searchPhotos. by rewrite Hup.
  - unfold goToPage. destruct (_ && _); [by rewrite Hup | exact Hu].
  - unfold toggleViewMode. by rewrite Hup.
  - exact Hu.
  - exact Hu.
  - unfold nextImage. by destruct (_ <? _).
  - unfold prevImage. by destruct (_ >? _).
  - unfold toggleSelectionMode. simpl.
    destruct (negb (negb _)); [constructor | exact Hu].
  - by apply togglePhotoSelection_uniqueIds.
  - by apply selectAllVisible_uniqueIds.
  - constructor.
  - unfold startSlideshow. by destruct (_ =? _).
  - by rewrite Hstop.
  - exact Hu.
  - unfold slideshowTimerFires. destruct (timerRunning _ _); [by rewrite Htick | exact Hu].
  - unfold autoRefreshTimerFires.
    destruct (timerRunning _ _); [by rewrite Hpoll | exact Hu].
Qed.

(** The selections of reachable pages have unique ids. *)
Lemma reachable_uniqueIds (H : Host) (st : App) :
  reachable H st -> uniqueIds (selectedPhotos st).
Proof.
  induction 1 as [| st st' _ IH Hstep]; [constructor |].
  by apply (step_uniqueIds H st st').
Qed.

(** C10 on a page where the first two photos of an album of three were
    selected by hand. *)
Lemma togglePhotoSelection_involutive_on_membership_witness :
  let p := photo 2 "Gaurav" (2 * UtcHost.msPerDay) in
  let st := togglePhotoSelection p
              (togglePhotoSelection (photo 3 "Gaurav" (3 * UtcHost.msPerDay))
                 (loaded (album 3))) in
  uniqueIds (selectedPhotos st)
  /\ isPhotoSelected p st = true
  /\ isPhotoSelected p (togglePhotoSelection p st) = false
  /\ isPhotoSelected p (togglePhotoSelection p (togglePhotoSelection p st)) = true.
Proof.
  intros p st.
  assert (Hu : uniqueIds (selectedPhotos st)).
  { apply (reachable_uniqueIds UtcHost.host).
    eapply reachable_step; [| apply step_togglePhotoSelection].
    eapply reachable_step; [| apply step_togglePhotoSelection].
    eapply reachable_step; [apply reachable_initial | apply step_loadImages]. }
  destruct (togglePhotoSelection_involutive_on_membership p st Hu) as (H1 & H2 & _).
  assert (Hsel : isPhotoSelected p st = true) by (vm_compute; reflexivity).
  split; [exact Hu |]. split; [exact Hsel |].
  split; [by rewrite H1, Hsel | by rewrite H2].
Defined.

(** ** The properties on concrete pages *)

(** No arrangement of two or more records is in newest-first order when
    one of them has a timestamp that is no valid date: as in JavaScript, no
    comparison with an Invalid Date holds. *)
Lemma invalid_timestamp_never_sorted (H : Host) (x : Image) (l : list Image) :
  newDate H (timestamp x) = None -> In x l -> (2 <= length l)%nat ->
  ~ sortedNewestFirst H l.
Proof.
  intros Hnone Hin Hlen Hsorted.
  apply list_elem_of_In, list_elem_of_lookup in Hin as [i Hi].
  pose proof (lookup_lt_Some _ _ _ Hi) as Hlt.
  destruct (Nat.lt_ge_cases (S i) (length l)) as [Hnext | Hlast].
  - destruct (lookup_lt_is_Some_2 l (S i) Hnext) as [b Hb].
    specialize (Hsorted i x b Hi Hb). unfold newerOrSame in Hsorted.
    by rewrite Hnone in Hsorted.
  - destruct i as [| j]; [lia |].
    destruct (lookup_lt_is_Some_2 l j) as [a Ha]; [lia |].
    specialize (Hsorted j a x Ha Hi). unfold newerOrSame in Hsorted.
    rewrite Hnone in Hsorted. by destruct (newDate H (timestamp a)).
Qed.

(** C4, the claim as stated fails. A successful load delivers a record of
    day 1, a record without timestamp and a record of day 2. Every
    comparison with the record without timestamp is NaN, the array stays in
    delivery order with the newest record last, and adjacent records are not
    in newest-first order; no arrangement of these three records would
    be. *)
Lemma loadImages_with_missing_timestamp_is_unsorted :
  let st := loadImages UtcHost.host (FetchOk (Some mixed)) initialApp in
  images st = mixed
  /\ loading st = false
  /\ ~ sortedNewestFirst UtcHost.host (images st)
  /\ (forall l, Permutation l mixed -> ~ sortedNewestFirst UtcHost.host l).
Proof.
  intros st.
  assert (Hall : forall l, Permutation l mixed ->
                           ~ sortedNewestFirst UtcHost.host l).
  { intros l Hperm. apply (invalid_timestamp_never_sorted UtcHost.host bare).
    - reflexivity.
    - apply (Permutation_in bare (Permutation_sym Hperm)). right. by left.
    - rewrite (Permutation_length Hperm). simpl. lia. }
  assert (Himg : images st = mixed) by (vm_compute; reflexivity).
  split; [exact Himg |]. split; [reflexivity |].
  split; [rewrite Himg; by apply Hall | exact Hall].
Qed.

(** C4 on three records delivered oldest first. *)
Lemma loadImages_sorts_newest_first_witness :
  let st := loadImages UtcHost.host (FetchOk (Some (rev family))) initialApp in
  validTimestamps UtcHost.host (rev family)
  /\ images st = family
  /\ sortedNewestFirst UtcHost.host (images st).
Proof.
  assert (Hv : validTimestamps UtcHost.host (default [] (Some (rev family)))).
  { unfold validTimestamps. simpl. repeat constructor; by eexists. }
  destruct (loadImages_sorts_newest_first UtcHost.host (Some (rev family))
              initialApp Hv) as (Hs & _).
  split; [exact Hv |]. split; [vm_compute; reflexivity | exact Hs].
Defined.

(** An auto-refresh poll that finds one more photo reports one new photo; a
    poll whose fetch fails reports nothing and empties the list. *)
Example autoRefresh_one_new_photo :
  let st := autoRefreshTick UtcHost.host (FetchOk (Some family))
              (loaded (drop 1 family)) in
  notifications st = [newPhotosNotification 1] /\ len (images st) = 3.
Proof. vm_compute. by split. Qed.

Example autoRefresh_failed_poll :
  let st := autoRefreshTick UtcHost.host FetchFailed (loaded family) in
  notifications st = [] /\ images st = [] /\ displayedImages st = [].
Proof. vm_compute. by repeat split. Qed.

(** Three photos of January 1970 form one group of three. *)
Example groupImagesByMonth_family :
  groupedImages (loaded family) !! str "January 1970"
  = Some {| photos := family; count := 3; monthName := str "January";
            year := Some 1970; sortDate := Some (3 * UtcHost.msPerDay) |}.
Proof. vm_compute. reflexivity. Qed.

(** An album of 49 photos has three pages, the last with one photo. *)
Example pagination_49 :
  let st := goToPage UtcHost.host 3 (loaded (album 49)) in
  totalPages st = 3 /\ currentPage st = 3 /\ length (displayedImages st) = 1%nat.
Proof. vm_compute. by repeat split. Qed.

(** * Further properties of the client *)

(** ** The pager's page numbers *)

Lemma pageRange_length (a b : Z) : length (pageRange a b) = Z.to_nat (b - a + 1).
Proof. unfold pageRange. by rewrite length_map, length_seq. Qed.

Lemma pageRange_lookup (a b : Z) (i : nat) (p : Z) :
  pageRange a b !! i = Some p <-> p = a + Z.of_nat i /\ a + Z.of_nat i <= b.
Proof.
  unfold pageRange. rewrite list_lookup_fmap. split.
  - intros Hl. destruct (seq 0 _ !! i) as [k |] eqn:E; [| discriminate].
    apply lookup_seq in E as [-> Hlt]. simpl in Hl. injection Hl as <-.
    split; [reflexivity | lia].
  - intros [-> Hle]. rewrite (lookup_seq_lt 0) by lia. reflexivity.
Qed.

Lemma pageRange_In (a b p : Z) : In p (pageRange a b) <-> a <= p <= b.
Proof.
  rewrite <- list_elem_of_In, list_elem_of_lookup. split.
  - intros [i Hi]. apply pageRange_lookup in Hi. lia.
  - intros [Hlo Hhi]. exists (Z.to_nat (p - a)). apply pageRange_lookup. lia.
Qed.

(** X1. [getPageNumbers] returns consecutive ascending page numbers, never
    more than five, all between 1 and [totalPages]. With at most five pages
    it returns all of them. With more it returns exactly the pages of the
    window that starts two pages before the current one (at page 1 at the
    earliest), is five pages wide and is cut off at the last page: its first
    number is [max 1 (currentPage - 2)] and its last
    [min totalPages (max 1 (currentPage - 2) + 4)]. So a valid current page
    is always among the numbers; the window has five numbers when two pages
    follow the current one, and only the last three on the last page. *)
Theorem getPageNumbers_window (st : App) :
  let pages := getPageNumbers st in
  (length pages <= 5)%nat
  /\ (forall (i : nat) (p : Z), pages !! i = Some p -> 1 <= p <= totalPages st)
  /\ (forall (i : nat) (p q : Z),
        pages !! i = Some p -> pages !! S i = Some q -> q = p + 1)
  /\ (totalPages st <= 5 -> forall p, In p pages <-> 1 <= p <= totalPages st)
  /\ (5 < totalPages st ->
      let start := Z.max 1 (currentPage st - 2) in
      let stop := Z.min (totalPages st) (start + 4) in
      (forall p, In p pages <-> start <= p <= stop)
      /\ (start <= totalPages st ->
          pages !! 0%nat = Some start /\ last pages = Some stop))
  /\ (1 <= currentPage st <= totalPages st -> In (currentPage st) pages)
  /\ (5 < totalPages st -> 1 <= currentPage st ->
      currentPage st + 2 <= totalPages st -> length pages = 5%nat)
  /\ (5 < totalPages st -> currentPage st = totalPages st ->
      pages = [totalPages st - 2; totalPages st - 1; totalPages st]).
Proof.
  intros pages. subst pages. unfold getPageNumbers.
  destruct (Z.leb_spec (totalPages st) 5) as [Hsmall | Hlarge].
  - split; [rewrite pageRange_length; lia |].
    split; [intros i p Hp; apply pageRange_lookup in Hp; lia |].
    split; [intros i p q Hp Hq; apply pageRange_lookup in Hp, Hq; lia |].
    split; [intros _ p; apply pageRange_In |].
    split; [intros; lia |].
    split; [intros Hc; by apply pageRange_In |].
    split; intros; lia.
  - set (start := Z.max 1 (currentPage st - 2)).
    set (stop := Z.min (totalPages st) (start + 5 - 1)).
    split; [rewrite pageRange_length; lia |].
    split; [intros i p Hp; apply pageRange_lookup in Hp; lia |].
    split; [intros i p q Hp Hq; apply pageRange_lookup in Hp, Hq; lia |].
    split; [intros; lia |].
    split.
    { intros _.
      replace (Z.min (totalPages st) (start + 4)) with stop
        by (subst stop; f_equal; lia).
      split; [intros p; apply pageRange_In |].
      intros Hnonempty. split; [apply pageRange_lookup; lia |].
      rewrite last_lookup, pageRange_length.
      apply pageRange_lookup. lia. }
    split; [intros Hc; apply pageRange_In; lia |].
    split; [intros _ H1 H2; rewrite pageRange_length; lia |].
    intros _ Hlast.
    assert (Hs : start = totalPages st - 2) by lia.
    assert (He : stop = totalPages st) by lia.
    rewrite Hs, He. unfold pageRange.
    replace (totalPages st - (totalPages st - 2) + 1) with 3 by lia.
    simpl. repeat f_equal; lia.
Qed.

(** ** Pages partition the filtered list *)

Section Pages.

Context (H : Host).

Lemma chunks_concat {A : Type} (k : nat) (l : list A) :
  (length l <= 24 * k)%nat ->
  concat (map (fun i => take 24 (drop (24 * i) l)) (seq 0 k)) = l.
Proof.
  revert l. induction k as [| k IH]; intros l Hl.
  - destruct l; [reflexivity | simpl in Hl; lia].
  - rewrite <- cons_seq, <- fmap_S_seq, map_cons, concat_cons.
    rewrite Nat.mul_0_r, drop_0.
    change (map ?f (S <$> ?xs)) with (map f (map S xs)). rewrite map_map.
    transitivity (take 24 l ++ drop 24 l); [| apply take_drop]. f_equal.
    rewrite <- (IH (drop 24 l)) by (rewrite length_drop; lia).
    f_equal. apply map_ext. intros i. rewrite drop_drop. do 2 f_equal. lia.
Qed.

Lemma updatePagination_on_page (page : Z) (st : App) :
  1 <= page <= Math_ceil_div (len (filteredImages H st)) photosPerPage ->
  let st' := updatePagination H (set_currentPage page st) in
  currentPage st' = page
  /\ displayedImages st'
     = take 24 (drop (24 * Z.to_nat (page - 1)) (filteredImages H st)).
Proof.
  intros Hp st'. subst st'.
  assert (Hf : filteredImages H (set_currentPage page st) = filteredImages H st)
    by reflexivity.
  assert (Hc : currentPage (updatePagination H (set_currentPage page st)) = page).
  { rewrite updatePagination_currentPage, updatePagination_totalPages, Hf.
    simpl. destruct (Z.gtb_spec page (Math_ceil_div (len (filteredImages H st))
                                        photosPerPage)); [lia | reflexivity]. }
  split; [exact Hc |].
  rewrite updatePagination_displayedImages, Hc, Hf.
  unfold photosPerPage. rewrite slice_nonneg by lia.
  f_equal; [lia | f_equal; lia].
Qed.

(** X2. The pages partition the filtered list: after [updatePagination],
    going to page 1, 2, ..., [totalPages] in turn and concatenating what
    each page displays gives the filtered list back, every image on exactly
    one page and in order. *)
Theorem pages_partition_filtered_list (st : App) :
  let st' := updatePagination H st in
  concat (map (fun page => displayedImages (goToPage H page st'))
              (pageRange 1 (totalPages st')))
  = filteredImages H st.
Proof.
  intros st'.
  assert (Ht : totalPages st'
               = Math_ceil_div (len (filteredImages H st)) photosPerPage)
    by apply updatePagination_totalPages.
  assert (Hf : filteredImages H st' = filteredImages H st).
  { apply filteredImages_ext;
      [apply updatePagination_images | apply updatePagination_searchQuery]. }
  pose proof (Math_ceil_div_bounds (len (filteredImages H st)) photosPerPage
                ltac:(reflexivity)) as Hceil.
  pose proof (len_nonneg (filteredImages H st)) as Hlen.
  rewrite <- Ht in Hceil. unfold photosPerPage in Hceil.
  unfold pageRange. rewrite map_map.
  replace (totalPages st' - 1 + 1) with (totalPages st') by lia.
  rewrite <- (chunks_concat (Z.to_nat (totalPages st')) (filteredImages H st))
    by (unfold len in *; lia).
  f_equal. apply map_ext_in. intros i Hi. apply in_seq in Hi.
  rewrite goToPage_in_range by lia.
  destruct (updatePagination_on_page (1 + Z.of_nat i) st') as [_ Hd].
  { rewrite Hf, <- Ht. lia. }
  rewrite Hd, Hf. do 3 f_equal. lia.
Qed.

End Pages.

(** ** Moving between pages *)

Section PageMoves.

Context (H : Host).

Lemma updatePagination_paged (st : App) :
  updatePagination H st
  = paged (totalPages (updatePagination H st))
          (currentPage (updatePagination H st))
          (displayedImages (updatePagination H st)) st.
Proof.
  unfold updatePagination, paged. destruct st. cbn -[filteredImages Math_ceil_div slice].
  by destruct (_ >? _).
Qed.

Lemma paged_overwrite (T C T' C' x : Z) (D D' : list Image) (st : App) :
  paged T C D (set_currentPage x (paged T' C' D' st)) = paged T C D st.
Proof. by destruct st. Qed.

Lemma paged_filteredImages (T C : Z) (D : list Image) (st : App) :
  filteredImages H (paged T C D st) = filteredImages H st.
Proof. reflexivity. Qed.

(** [updatePagination] on a page that is in range only refreshes what is
    displayed. *)
Lemma updatePagination_goto (page : Z) (st : App) :
  1 <= page <= Math_ceil_div (len (filteredImages H st)) photosPerPage ->
  updatePagination H (set_currentPage page st)
  = paged (Math_ceil_div (len (filteredImages H st)) photosPerPage) page
          (take 24 (drop (24 * Z.to_nat (page - 1)) (filteredImages H st))) st.
Proof.
  intros Hp. destruct (updatePagination_on_page H page st Hp) as [Hc Hd].
  rewrite updatePagination_paged, Hc, Hd, updatePagination_totalPages.
  by destruct st.
Qed.

Lemma paged_paged (T C T' C' : Z) (D D' : list Image) (st : App) :
  paged T C D (paged T' C' D' st) = paged T C D st.
Proof. by destruct st. Qed.

Lemma paged_fields (T C : Z) (D : list Image) (st : App) :
  totalPages (paged T C D st) = T /\ currentPage (paged T C D st) = C.
Proof. by destruct st. Qed.

(** A paginated state whose page is at least 1, in closed form. *)
Lemma updatePagination_closed_form (st : App) :
  1 <= currentPage (updatePagination H st) ->
  updatePagination H st
  = paged (Math_ceil_div (len (filteredImages H st)) photosPerPage)
          (currentPage (updatePagination H st))
          (take 24 (drop (24 * Z.to_nat (currentPage (updatePagination H st) - 1))
                         (filteredImages H st))) st.
Proof.
  intros Hc. rewrite updatePagination_paged at 1.
  rewrite updatePagination_totalPages, updatePagination_displayedImages.
  unfold photosPerPage. rewrite slice_nonneg by lia.
  do 2 f_equal; [lia | f_equal; lia].
Qed.

Lemma goToPage_paged (page T C : Z) (D : list Image) (st : App) :
  T = Math_ceil_div (len (filteredImages H st)) photosPerPage ->
  1 <= page <= T ->
  goToPage H page (paged T C D st)
  = paged T page
      (take 24 (drop (24 * Z.to_nat (page - 1)) (filteredImages H st))) st.
Proof.
  intros HT Hp.
  rewrite goToPage_in_range by (destruct (paged_fields T C D st) as [-> _]; lia).
  rewrite updatePagination_goto by (rewrite paged_filteredImages; lia).
  by rewrite paged_filteredImages, paged_paged, <- HT.
Qed.

(** X4. [nextPage] on the last page (or beyond) and [prevPage] on page 1
    change nothing. Between them they are inverse: from a paginated state
    that is not on the last page, [nextPage] moves one page forward and
    [prevPage] then restores the state exactly; likewise [prevPage] followed
    by [nextPage] from a page after the first. *)
Theorem nextPage_prevPage_round_trip (st : App) :
  let st' := updatePagination H st in
  (totalPages st <= currentPage st -> nextPage H st = st)
  /\ (currentPage st <= 1 -> prevPage H st = st)
  /\ (1 <= currentPage st' < totalPages st' ->
      currentPage (nextPage H st') = currentPage st' + 1
      /\ prevPage H (nextPage H st') = st')
  /\ (1 < currentPage st' <= totalPages st' ->
      currentPage (prevPage H st') = currentPage st' - 1
      /\ nextPage H (prevPage H st') = st').
Proof.
  intros st'.
  split; [intros Hlast; apply goToPage_out_of_range; lia |].
  split; [intros Hfirst; apply goToPage_out_of_range; lia |].
  assert (Ht : totalPages st'
               = Math_ceil_div (len (filteredImages H st)) photosPerPage)
    by apply updatePagination_totalPages.
  set (T := Math_ceil_div (len (filteredImages H st)) photosPerPage) in *.
  set (page p := take 24 (drop (24 * Z.to_nat (p - 1)) (filteredImages H st))).
  assert (Hmove : forall d, 1 <= currentPage st' <= T ->
                            1 <= currentPage st' + d <= T ->
            currentPage (goToPage H (currentPage st' + d) st') = currentPage st' + d
            /\ goToPage H (currentPage st' + d - d)
                 (goToPage H (currentPage st' + d) st') = st').
  { intros d Hc Hd.
    assert (Hform : st' = paged T (currentPage st') (page (currentPage st')) st)
      by (apply updatePagination_closed_form; exact (proj1 Hc)).
    remember (currentPage st') as c eqn:Ec.
    rewrite Hform at 1 2.
    rewrite (goToPage_paged (c + d)) by (done || lia).
    split; [apply paged_fields |].
    rewrite goToPage_paged by (done || lia).
    replace (c + d - d) with c by lia.
    symmetry. exact Hform. }
  split.
  - intros Hc. unfold nextPage at 2.
    destruct (Hmove 1) as [Hn Hback]; [lia | lia |].
    unfold nextPage at 1. split; [exact Hn |].
    unfold prevPage. rewrite Hn. exact Hback.
  - intros Hc.
    destruct (Hmove (-1)) as [Hn Hback]; [lia | lia |].
    change (currentPage st' + -1) with (currentPage st' - 1) in Hn, Hback.
    unfold nextPage, prevPage. split; [exact Hn |].
    rewrite Hn.
    replace (currentPage st' - 1 + 1) with (currentPage st' - 1 - -1) by lia.
    exact Hback.
Qed.

End PageMoves.

(** ** Loading twice, and loading after a failure *)

Section Reloading.

Context (H : Host).





Lemma updatePagination_groupedImages (st : App) :
  groupedImages (updatePagination H st) = groupedImages st.
Proof. unfold updatePagination. simpl. by destruct (_ >? _). Qed.

Lemma groupedImages_set_loading (v : bool) (st : App) :
  groupedImages (set_loading v st) = groupedImages st.
Proof. reflexivity. Qed.

Lemma loadImages_failed_fields (st : App) :
  let st' := loadImages H FetchFailed st in
  images st' = [] /\ displayedImages st' = []
  /\ groupedImages st' = groupedImages st
  /\ totalPages st' = totalPages st
  /\ currentPage st' = currentPage st.
Proof. by repeat split. Qed.

Lemma loadImages_ok_groupedImages (d : option (list Image)) (st : App) :
  groupedImages (loadImages H (FetchOk d) st)
  = foldl (addToGroup H) ∅ (sort (newestFirst H) (default [] d)).
Proof.
  rewrite loadImages_ok_unfold, groupedImages_set_loading.
  by rewrite updatePagination_groupedImages.
Qed.

(** X6. A successful load keeps every delivered record exactly once,
    whatever the timestamps are, and leaves the month groups in step with
    the list: their counts add up to the number of images. A failed load
    right after it empties the list but neither the month groups nor
    [totalPages]: the groups still count the images of the earlier load. *)
Theorem failed_load_keeps_stale_groups (d : option (list Image)) (st : App) :
  let s1 := loadImages H (FetchOk d) st in
  let s2 := loadImages H FetchFailed s1 in
  Permutation (images s1) (default [] d)
  /\ totalCount (groupedImages s1) = len (images s1)
  /\ len (images s1) = len (default [] d)
  /\ images s2 = []
  /\ groupedImages s2 = groupedImages s1
  /\ totalCount (groupedImages s2) = len (default [] d)
  /\ totalPages s2 = totalPages s1.
Proof.
  intros s1 s2. subst s1 s2.
  assert (Hperm : Permutation (images (loadImages H (FetchOk d) st)) (default [] d)).
  { rewrite loadImages_ok_images. apply sort_permutation. }
  assert (Hlen : len (images (loadImages H (FetchOk d) st)) = len (default [] d)).
  { unfold len. by rewrite Hperm. }
  assert (Hcount : totalCount (groupedImages (loadImages H (FetchOk d) st))
                   = len (images (loadImages H (FetchOk d) st))).
  { rewrite loadImages_ok_groupedImages, loadImages_ok_images.
    apply foldl_addToGroup. }
  destruct (loadImages_failed_fields (loadImages H (FetchOk d) st))
    as (Hi & _ & Hg & Ht & _).
  split; [exact Hperm |]. split; [exact Hcount |]. split; [exact Hlen |].
  split; [exact Hi |]. split; [exact Hg |].
  split; [| exact Ht].
  by rewrite Hg, Hcount.
Qed.

(** X7. [refreshGallery] reports success whatever the fetch did: it appends
    the gallery-refreshed success notification and nothing else, also when
    the fetch failed and the image list was emptied. *)
Theorem refreshGallery_always_reports_success (r : FetchResult) (st : App) :
  let st' := refreshGallery H r st in
  notifications st'
  = notifications st ++ [{| message := MsgGalleryRefreshed; msgType := NSuccess |}]
  /\ images st' = images (loadImages H r st)
  /\ (r = FetchFailed -> images st' = [] /\ displayedImages st' = []).
Proof.
  intros st'. subst st'. unfold refreshGallery, showNotification. simpl.
  rewrite loadImages_notifications. split; [reflexivity |].
  split; [reflexivity |]. by intros ->.
Qed.

End Reloading.

(** ** Selecting all visible photos, and the frame of a toggle *)

Section SelectAll.

Implicit Types (photo p q : Image) (sel shown : list Image).

Lemma set_selectedPhotos_twice (a b : list Image) (st : App) :
  set_selectedPhotos a (set_selectedPhotos b st) = set_selectedPhotos a st.
Proof. by destruct st. Qed.

Lemma selectAllVisible_loop shown (st : App) :
  foldl (fun st photo =>
           if negb (isPhotoSelected photo st)
           then set_selectedPhotos (selectedPhotos st ++ [photo]) st
           else st) st shown
  = set_selectedPhotos (selectAll (selectedPhotos st) shown) st.
Proof.
  revert st. induction shown as [| photo shown IH]; intros st.
  - by destruct st.
  - simpl. rewrite IH. unfold isPhotoSelected.
    destruct (existsb (sameId photo) (selectedPhotos st)); simpl; [reflexivity |].
    by rewrite set_selectedPhotos_twice.
Qed.

Lemma selectAllVisible_selectAll (st : App) :
  selectAllVisible st
  = set_selectedPhotos (selectAll (selectedPhotos st) (displayedImages st)) st.
Proof. apply selectAllVisible_loop. Qed.

Lemma selectAll_extends sel shown :
  exists added, selectAll sel shown = sel ++ added /\ sublist added shown.
Proof.
  revert sel. induction shown as [| photo shown IH]; intros sel.
  - exists []. split; [by rewrite app_nil_r | constructor].
  - simpl. destruct (existsb (sameId photo) sel).
    + destruct (IH sel) as (added & -> & Hsub).
      exists added. split; [reflexivity | by constructor].
    + destruct (IH (sel ++ [photo])) as (added & -> & Hsub).
      exists (photo :: added). split; [by rewrite <- app_assoc | by constructor].
Qed.

Lemma selectAll_keeps sel shown q :
  existsb (sameId q) sel = true -> existsb (sameId q) (selectAll sel shown) = true.
Proof.
  intros Hq. destruct (selectAll_extends sel shown) as (added & -> & _).
  by rewrite existsb_app, Hq.
Qed.

Lemma selectAll_covers sel shown p :
  In p shown -> existsb (sameId p) (selectAll sel shown) = true.
Proof.
  revert sel. induction shown as [| photo shown IH]; intros sel Hin; [destruct Hin |].
  simpl. destruct Hin as [-> | Hin].
  - apply selectAll_keeps.
    destruct (existsb (sameId p) sel) eqn:E; [exact E |].
    rewrite existsb_app. simpl. by rewrite sameId_refl, orb_true_r.
  - by apply IH.
Qed.

Lemma selectAll_fixed sel shown :
  (forall p, In p shown -> existsb (sameId p) sel = true) ->
  selectAll sel shown = sel.
Proof.
  induction shown as [| photo shown IH]; intros Hall; [reflexivity |].
  simpl. rewrite (Hall photo) by by left.
  apply IH. intros p Hp. apply Hall. by right.
Qed.

(** X8. [selectAllVisible] only adds to the selection: the old selection
    stays in front, and what is appended are displayed photos in display
    order. Afterwards every displayed photo is selected and every photo that
    was selected still is; a second call changes nothing. It touches no
    other field, so it does not enter selection mode by itself. *)
Theorem selectAllVisible_selects_every_displayed_photo (st : App) :
  let st' := selectAllVisible st in
  (exists added, selectedPhotos st' = selectedPhotos st ++ added
                 /\ sublist added (displayedImages st))
  /\ (forall p, In p (displayedImages st) -> isPhotoSelected p st' = true)
  /\ (forall p, isPhotoSelected p st = true -> isPhotoSelected p st' = true)
  /\ selectAllVisible st' = st'
  /\ st' = set_selectedPhotos (selectedPhotos st') st.
Proof.
  intros st'. subst st'. rewrite selectAllVisible_selectAll.
  change (selectedPhotos (set_selectedPhotos ?l ?s)) with l.
  split; [apply selectAll_extends |].
  split; [intros p Hp; by apply selectAll_covers |].
  split; [intros p Hp; by apply selectAll_keeps |].
  split; [| reflexivity].
  rewrite selectAllVisible_selectAll.
  change (selectedPhotos (set_selectedPhotos ?l ?s)) with l.
  change (displayedImages (set_selectedPhotos ?l ?s)) with (displayedImages s).
  rewrite set_selectedPhotos_twice. f_equal.
  apply selectAll_fixed. intros p Hp. by apply selectAll_covers.
Qed.

Lemma removeFirst_other photo q sel :
  img_id q <> img_id photo ->
  existsb (sameId q) (removeFirst (sameId photo) sel) = existsb (sameId q) sel.
Proof.
  intros Hne. induction sel as [| x sel IH]; [reflexivity |]. simpl.
  destruct (sameId photo x) eqn:Hx; simpl; [| by rewrite IH].
  apply sameId_true in Hx.
  assert (Hq : sameId q x = false).
  { apply not_true_is_false. rewrite sameId_true. congruence. }
  by rewrite Hq.
Qed.

Lemma removeFirst_length {A : Type} (f : A -> bool) (xs : list A) :
  existsb f xs = true -> S (length (removeFirst f xs)) = length xs.
Proof.
  induction xs as [| x xs IH]; simpl; [discriminate |].
  destruct (f x); simpl; [reflexivity |]. intros Hex. by rewrite IH.
Qed.

(** X9. [togglePhotoSelection(p)] changes the selection by exactly one
    entry, removing one when [p] was selected and appending [p] when it was
    not, and never changes whether a photo with another id is selected. *)
Theorem togglePhotoSelection_touches_one_id (p q : Image) (st : App) :
  img_id q <> img_id p ->
  let st' := togglePhotoSelection p st in
  isPhotoSelected q st' = isPhotoSelected q st
  /\ (isPhotoSelected p st = true ->
      S (length (selectedPhotos st')) = length (selectedPhotos st))
  /\ (isPhotoSelected p st = false ->
      selectedPhotos st' = selectedPhotos st ++ [p]).
Proof.
  intros Hne st'. subst st'. unfold isPhotoSelected at 1.
  rewrite togglePhotoSelection_selected. unfold isPhotoSelected.
  destruct (existsb (sameId p) (selectedPhotos st)) eqn:E.
  - split; [by apply removeFirst_other |].
    split; [intros _; by apply removeFirst_length | discriminate].
  - split; [| split; [discriminate | reflexivity]].
    rewrite existsb_app. simpl.
    assert (Hq : sameId q p = false).
    { apply not_true_is_false. rewrite sameId_true. congruence. }
    by rewrite Hq, !orb_false_r.
Qed.

End SelectAll.

(** ** The keyboard *)

(** X10. With the lightbox closed, Ctrl+A puts the page in selection mode
    and selects every displayed photo without dropping any photo that was
    selected, and Escape after it leaves selection mode with an empty
    selection; the arrow keys and Space do nothing. With the lightbox open,
    Ctrl+A does nothing. *)
Theorem keydown_select_all_then_escape (st : App) :
  lightboxOpen st = false ->
  let s1 := keydown KeySelectAll st in
  let s2 := keydown KeyEscape s1 in
  selectionMode s1 = true
  /\ (forall p, In p (displayedImages st) -> isPhotoSelected p s1 = true)
  /\ (forall p, isPhotoSelected p st = true -> isPhotoSelected p s1 = true)
  /\ (selectionMode s2 = false /\ selectedPhotos s2 = [])
  /\ (keydown KeyArrowLeft st = st /\ keydown KeyArrowRight st = st
      /\ keydown KeySpace st = st)
  /\ keydown KeySelectAll (set_lightboxOpen true st)
     = set_lightboxOpen true st.
Proof.
  intros Hclosed s1 s2.
  set (entered := if negb (selectionMode st) then toggleSelectionMode st else st).
  assert (He : selectionMode entered = true
               /\ selectedPhotos entered = selectedPhotos st
               /\ displayedImages entered = displayedImages st
               /\ lightboxOpen entered = false).
  { subst entered. unfold toggleSelectionMode.
    destruct (selectionMode st) eqn:E; simpl; by rewrite ?E, ?Hclosed. }
  destruct He as (Hmode & Hsel & Hshown & Hopen).
  assert (Hs1 : s1 = selectAllVisible entered).
  { subst s1 entered. unfold keydown. by rewrite Hclosed. }
  rewrite selectAllVisible_selectAll in Hs1.
  assert (Hm1 : selectionMode s1 = true /\ lightboxOpen s1 = false).
  { rewrite Hs1. by destruct entered. }
  destruct Hm1 as [Hm1 Ho1].
  assert (Hp1 : selectedPhotos s1
                = selectAll (selectedPhotos st) (displayedImages st)).
  { rewrite Hs1, <- Hsel, <- Hshown. by destruct entered. }
  split; [exact Hm1 |].
  split.
  { intros p Hp. unfold isPhotoSelected. rewrite Hp1. by apply selectAll_covers. }
  split.
  { intros p Hp. unfold isPhotoSelected in *. rewrite Hp1.
    by apply selectAll_keeps. }
  split.
  { subst s2. unfold keydown. rewrite Ho1, Hm1. unfold toggleSelectionMode.
    simpl. by rewrite Hm1. }
  split; [unfold keydown; by rewrite Hclosed |].
  reflexivity.
Qed.

(** ** Timers *)

Lemma startSlideshow_fields (st : App) :
  images st <> [] ->
  let st' := startSlideshow st in
  slideshowActive st' = true
  /\ lightboxOpen st' = true
  /\ currentIndex st' = 0
  /\ images st' = images st
  /\ slideshowInterval st' = Some (nextTimerId st)
  /\ activeIntervals st' = activeIntervals st ++ [(nextTimerId st, SlideshowTimer)]
  /\ nextTimerId st' = S (nextTimerId st).
Proof.
  intros Hne. unfold startSlideshow.
  destruct (Z.eqb_spec (len (images st)) 0) as [Hz | Hz];
    [by apply len_nil_iff in Hz |].
  by repeat split.
Qed.

Lemma stopSlideshow_timers (st : App) :
  activeIntervals (stopSlideshow st)
  = match slideshowInterval st with
    | Some id => List.filter (fun t => negb (Nat.eqb (fst t) id)) (activeIntervals st)
    | None => activeIntervals st
    end
  /\ nextTimerId (stopSlideshow st) = nextTimerId st
  /\ slideshowInterval (stopSlideshow st) = None.
Proof. unfold stopSlideshow. simpl. by destruct (slideshowInterval st) eqn:E; simpl; rewrite ?E. Qed.

Section TimerInvariant.

Context (H : Host).

Lemma updatePagination_timerFields (st : App) :
  timerFields (updatePagination H st) = timerFields st.
Proof. unfold updatePagination, timerFields. simpl. by destruct (_ >? _). Qed.

Lemma timerFields_set_loading (v : bool) (st : App) :
  timerFields (set_loading v st) = timerFields st.
Proof. reflexivity. Qed.

Lemma timerFields_showNotification (m : Message) (t : NotificationType) (st : App) :
  timerFields (showNotification m t st) = timerFields st.
Proof. reflexivity. Qed.

Lemma loadImages_timerFields (r : FetchResult) (st : App) :
  timerFields (loadImages H r st) = timerFields st.
Proof.
  destruct r as [d |]; [| reflexivity].
  rewrite loadImages_ok_unfold.
  rewrite timerFields_set_loading.
  by rewrite updatePagination_timerFields.
Qed.

Lemma autoRefreshTick_timerFields (r : FetchResult) (st : App) :
  timerFields (autoRefreshTick H r st) = timerFields st.
Proof.
  unfold autoRefreshTick. destruct (_ >? _); [| apply loadImages_timerFields].
  rewrite timerFields_showNotification. apply loadImages_timerFields.
Qed.

Lemma selectAllVisible_timerFields (st : App) :
  timerFields (selectAllVisible st) = timerFields st.
Proof. by rewrite selectAllVisible_selectAll. Qed.

Lemma nextImage_timerFields (st : App) : timerFields (nextImage st) = timerFields st.
Proof. unfold nextImage. by destruct (_ <? _). Qed.

(** Steps that are not the slideshow's leave the timers alone. *)
Lemma timersFresh_same (st st' : App) :
  timerFields st' = timerFields st -> timersFresh st -> timersFresh st'.
Proof.
  unfold timerFields, timersFresh. intros Heq. injection Heq as -> -> ->. done.
Qed.

Lemma timersFresh_stopSlideshow (st : App) :
  timersFresh st ->
  timersFresh (stopSlideshow st)
  /\ forall id, (id, AutoRefreshTimer) ∈ activeIntervals st ->
                (id, AutoRefreshTimer) ∈ activeIntervals (stopSlideshow st).
Proof.
  intros [Hact Hshow]. destruct (stopSlideshow_timers st) as (Ha & Hn & Hs).
  unfold timersFresh. rewrite Ha, Hn, Hs.
  destruct (slideshowInterval st) as [sid |] eqn:E.
  - split; [split; [| discriminate] |].
    + intros t Ht. apply list_elem_of_In, filter_In in Ht as [Ht _].
      by apply Hact, list_elem_of_In.
    + intros id Hid. apply list_elem_of_In, filter_In.
      split; [by apply list_elem_of_In |]. simpl.
      destruct (Nat.eqb_spec id sid) as [-> | Hne]; [| reflexivity].
      by destruct (Hshow sid eq_refl) as [_ Hnot].
  - split; [split; [exact Hact | discriminate] | done].
Qed.

Lemma timersFresh_slideshowTick (st : App) :
  timersFresh st ->
  timersFresh (slideshowTick st)
  /\ forall id, (id, AutoRefreshTimer) ∈ activeIntervals st ->
                (id, AutoRefreshTimer) ∈ activeIntervals (slideshowTick st).
Proof.
  intros Hfresh. unfold slideshowTick.
  pose proof (nextImage_timerFields st) as Hn.
  assert (Hfn : timersFresh (nextImage st)) by by apply (timersFresh_same st).
  assert (Ha : activeIntervals (nextImage st) = activeIntervals st)
    by (unfold timerFields in Hn; congruence).
  destruct (_ =? _).
  - destruct (timersFresh_stopSlideshow (nextImage st) Hfn) as [Hf Hk].
    split; [exact Hf |]. intros id Hid. apply Hk. by rewrite Ha.
  - split; [exact Hfn |]. intros id Hid. by rewrite Ha.
Qed.

(** Every step keeps timer ids fresh and keeps every running auto-refresh
    timer running. *)
Lemma step_timers (st st' : App) :
  step H st st' ->
  timersFresh st ->
  timersFresh st'
  /\ forall id, (id, AutoRefreshTimer) ∈ activeIntervals st ->
                (id, AutoRefreshTimer) ∈ activeIntervals st'.
Proof.
  assert (Hsame : forall s s', timerFields s' = timerFields s -> timersFresh s ->
            timersFresh s'
            /\ forall id, (id, AutoRefreshTimer) ∈ activeIntervals s ->
                          (id, AutoRefreshTimer) ∈ activeIntervals s').
  { intros s s' Heq Hf. split; [by apply (timersFresh_same s) |].
    unfold timerFields in Heq. injection Heq as -> _ _. done. }
  intros Hstep Hfresh. destruct Hstep.
  - apply Hsame; [apply loadImages_timerFields | done].
  - apply Hsame; [| done]. unfold refreshGallery.
    rewrite timerFields_showNotification. apply loadImages_timerFields.
  - by apply Hsame.
  - apply Hsame; [| done]. unfold searchPhotos.
    by rewrite updatePagination_timerFields.
  - apply Hsame; [| done]. unfold clearSearch, searchPhotos.
    by rewrite updatePagination_timerFields.
  - apply Hsame; [| done]. unfold goToPage.
    destruct (_ && _); [by rewrite updatePagination_timerFields | done].
  - apply Hsame; [| done]. unfold toggleViewMode.
    by rewrite updatePagination_timerFields.
  - by apply Hsame.
  - by apply Hsame.
  - apply Hsame; [apply nextImage_timerFields | done].
  - apply Hsame; [| done]. unfold prevImage. by destruct (_ >? _).
  - apply Hsame; [| done]. unfold toggleSelectionMode. simpl.
    by destruct (negb (negb _)).
  - apply Hsame; [| done]. unfold togglePhotoSelection. by destruct (_ >? _).
  - apply Hsame; [apply selectAllVisible_timerFields | done].
  - by apply Hsame.
  - destruct (images st) as [| image rest] eqn:Himg.
    { apply Hsame; [| done]. rewrite startSlideshow_empty; [done |].
      by rewrite Himg. }
    destruct (startSlideshow_fields st) as (_ & _ & _ & _ & Hi & Ha & Hn);
      [by rewrite Himg |].
    destruct Hfresh as [Hact Hshow].
    unfold timersFresh. rewrite Hi, Ha, Hn. split; [split |].
    + intros t Ht. apply elem_of_app in Ht as [Ht | Ht].
      * specialize (Hact t Ht). lia.
      * apply list_elem_of_singleton in Ht as ->. simpl. lia.
    + intros id Hid. injection Hid as <-. split; [lia |].
      intros Hin. apply elem_of_app in Hin as [Hin | Hin].
      * specialize (Hact _ Hin). simpl in Hact. lia.
      * by apply list_elem_of_singleton in Hin.
    + intros id Hid. apply elem_of_app. by left.
  - by apply timersFresh_stopSlideshow.
  - destruct Hfresh as [Hact Hshow].
    unfold setupAutoRefresh, setInterval, timersFresh. simpl.
    split; [split |].
    + intros t Ht. apply elem_of_app in Ht as [Ht | Ht].
      * specialize (Hact t Ht). lia.
      * apply list_elem_of_singleton in Ht as ->. simpl. lia.
    + intros id Hid. destruct (Hshow id Hid) as [Hlt Hnot]. split; [lia |].
      intros Hin. apply elem_of_app in Hin as [Hin | Hin]; [by apply Hnot |].
      apply list_elem_of_singleton in Hin. injection Hin as ->. lia.
    + intros id Hid. apply elem_of_app. by left.
  - unfold slideshowTimerFires. destruct (timerRunning _ _); [| by apply Hsame].
    by apply timersFresh_slideshowTick.
  - apply Hsame; [| done]. unfold autoRefreshTimerFires.
    destruct (timerRunning _ _); [apply autoRefreshTick_timerFields | done].
Qed.

Lemma reachable_timersFresh (st : App) : reachable H st -> timersFresh st.
Proof.
  induction 1 as [| st st' _ IH Hstep].
  - split; [intros t Ht; by apply elem_of_nil in Ht | discriminate].
  - by apply (step_timers st st').
Qed.

(** X11. Auto-refresh is never cancelled: on a page reachable from a fresh
    one, no event stops a running auto-refresh timer, and setting it up
    starts one. In particular stopping a slideshow clears the slideshow's
    timer only. *)
Theorem autoRefresh_timer_is_never_cleared (st st' : App) (id : nat) :
  reachable H st ->
  step H st st' ->
  (timerRunning (id, AutoRefreshTimer) st = true ->
   timerRunning (id, AutoRefreshTimer) st' = true)
  /\ timerRunning (nextTimerId st, AutoRefreshTimer) (setupAutoRefresh st) = true.
Proof.
  intros Hreach Hstep.
  destruct (step_timers st st' Hstep (reachable_timersFresh st Hreach))
    as [_ Hkeep].
  split.
  - unfold timerRunning. intros Hrun. apply bool_decide_eq_true_2.
    apply Hkeep. by apply bool_decide_eq_true_1 in Hrun.
  - apply bool_decide_eq_true_2. unfold setupAutoRefresh, setInterval. simpl.
    apply elem_of_app. right. by apply list_elem_of_singleton.
Qed.

End TimerInvariant.

(** ** What is displayed is always one page of the list *)

Section PageInvariant.

Context (H : Host).

Lemma pageConsistent_same (st st' : App) :
  pageFields st' = pageFields st -> pageConsistent st -> pageConsistent st'.
Proof.
  unfold pageFields, pageConsistent. intros Heq. injection Heq as -> -> -> ->. done.
Qed.

Lemma pageFields_set_loading (v : bool) (st : App) :
  pageFields (set_loading v st) = pageFields st.
Proof. reflexivity. Qed.

Lemma pageFields_showNotification (m : Message) (t : NotificationType) (st : App) :
  pageFields (showNotification m t st) = pageFields st.
Proof. reflexivity. Qed.

Lemma filteredImages_sublist (st : App) :
  sublist (filteredImages H st) (images st).
Proof.
  unfold filteredImages. destruct (truthyStr _); [apply filter_sublist | done].
Qed.

(** [updatePagination] on a page number of at least 1 displays one page of
    the list. *)
Lemma updatePagination_pageConsistent (st : App) :
  1 <= currentPage st -> pageConsistent (updatePagination H st).
Proof.
  intros Hc.
  pose proof (Math_ceil_div_bounds (len (filteredImages H st)) photosPerPage
                ltac:(reflexivity)) as Hceil.
  pose proof (len_nonneg (filteredImages H st)) as Hlen.
  assert (Hc' : 1 <= currentPage (updatePagination H st)).
  { rewrite updatePagination_currentPage. destruct (_ >? _); lia. }
  unfold pageConsistent.
  rewrite updatePagination_displayedImages, updatePagination_images.
  rewrite updatePagination_totalPages.
  unfold photosPerPage in *. rewrite slice_nonneg by lia.
  split; [| split; [| split]].
  - etransitivity; [apply sublist_take |].
    etransitivity; [apply sublist_drop | apply filteredImages_sublist].
  - rewrite length_take. lia.
  - exact Hc'.
  - lia.
Qed.

Lemma loadImages_pageConsistent (r : FetchResult) (st : App) :
  pageConsistent st -> pageConsistent (loadImages H r st).
Proof.
  intros (Hs & Hl & Hc & Ht). destruct r as [d |].
  - rewrite loadImages_ok_unfold.
    apply (pageConsistent_same _ _ (pageFields_set_loading false _)).
    by apply updatePagination_pageConsistent.
  - destruct (loadImages_failed_fields H st) as (Hi & Hd & _ & Ht' & Hc').
    unfold pageConsistent. rewrite Hi, Hd, Ht', Hc'.
    split; [constructor |]. split; [simpl; lia |]. by split.
Qed.

Lemma step_pageConsistent (st st' : App) :
  step H st st' -> pageConsistent st -> pageConsistent st'.
Proof.
  intros Hstep Hpc.
  assert (Hc : 1 <= currentPage st) by apply Hpc.
  assert (Hpoll : forall r, pageConsistent (autoRefreshTick H r st)).
  { intros r. unfold autoRefreshTick.
    destruct (_ >? _); [| by apply loadImages_pageConsistent].
    apply (pageConsistent_same _ _ (pageFields_showNotification _ _ _)).
    by apply loadImages_pageConsistent. }
  destruct Hstep.
  - by apply loadImages_pageConsistent.
  - unfold refreshGallery.
    apply (pageConsistent_same _ _ (pageFields_showNotification _ _ _)).
    by apply loadImages_pageConsistent.
  - exact Hpc.
  - unfold searchPhotos. by apply updatePagination_pageConsistent.
  - unfold clearSearch, searchPhotos. by apply updatePagination_pageConsistent.
  - unfold goToPage. destruct (Z.geb_spec page 1); simpl; [| exact Hpc].
    destruct (_ <=? _); [| exact Hpc].
    by apply updatePagination_pageConsistent.
  - unfold toggleViewMode. by apply updatePagination_pageConsistent.
  - exact Hpc.
  - exact Hpc.
  - apply (pageConsistent_same st); [| exact Hpc].
    unfold nextImage. by destruct (_ <? _).
  - apply (pageConsistent_same st); [| exact Hpc].
    unfold prevImage. by destruct (_ >? _).
  - apply (pageConsistent_same st); [| exact Hpc].
    unfold toggleSelectionMode. simpl. by destruct (negb (negb _)).
  - apply (pageConsistent_same st); [| exact Hpc].
    unfold togglePhotoSelection. by destruct (_ >? _).
  - apply (pageConsistent_same st); [| exact Hpc].
    by rewrite selectAllVisible_selectAll.
  - exact Hpc.
  - apply (pageConsistent_same st); [| exact Hpc].
    unfold startSlideshow. by destruct (_ =? _).
  - apply (pageConsistent_same st); [| exact Hpc].
    unfold stopSlideshow. simpl. by destruct (slideshowInterval st).
  - exact Hpc.
  - apply (pageConsistent_same st); [| exact Hpc].
    unfold slideshowTimerFires, slideshowTick.
    assert (Hn : pageFields (nextImage st) = pageFields st)
      by (unfold nextImage; by destruct (_ <? _)).
    destruct (timerRunning _ _); [| reflexivity].
    destruct (_ =? _); [| exact Hn].
    rewrite <- Hn. unfold stopSlideshow. simpl.
    by destruct (slideshowInterval (nextImage st)).
  - unfold autoRefreshTimerFires. destruct (timerRunning _ _); [apply Hpoll | exact Hpc].
Qed.

(** X3. On every page reachable from a fresh one, what is displayed is one
    page of the image list: a sub-list of the images in their order, never
    more than 24 of them, on a page number of at least 1 (with a page count
    that is never negative). *)
Theorem reachable_page_is_part_of_the_list (st : App) :
  reachable H st ->
  sublist (displayedImages st) (images st)
  /\ (length (displayedImages st) <= 24)%nat
  /\ 1 <= currentPage st
  /\ 0 <= totalPages st.
Proof.
  induction 1 as [| st st' _ IH Hstep].
  - split; [constructor |]. simpl. lia.
  - by apply (step_pageConsistent st st').
Qed.

End PageInvariant.

(** ** Keys in the lightbox, and slideshows started twice *)

(** X12. With the lightbox open, the arrow keys act exactly as [nextImage]
    and [prevImage]. Escape closes the lightbox and restores scrolling but
    does not stop a slideshow: the active flag and the running timers stay
    as they are. Space stops an active slideshow; pressed twice on a page
    with images and no slideshow it starts one and stops it again, leaving
    no slideshow timer of its own running. *)
Theorem keydown_in_lightbox (st : App) :
  lightboxOpen st = true ->
  (keydown KeyArrowRight st = nextImage st
   /\ keydown KeyArrowLeft st = prevImage st)
  /\ (let s := keydown KeyEscape st in
      lightboxOpen s = false /\ bodyOverflow s = OverflowAuto
      /\ slideshowActive s = slideshowActive st
      /\ activeIntervals s = activeIntervals st
      /\ slideshowInterval s = slideshowInterval st)
  /\ (slideshowActive st = true -> keydown KeySpace st = stopSlideshow st)
  /\ (slideshowActive st = false -> images st <> [] ->
      let s := keydown KeySpace (keydown KeySpace st) in
      slideshowActive s = false
      /\ slideshowInterval s = None
      /\ timerRunning (nextTimerId st, SlideshowTimer) s = false
      /\ currentIndex s = 0).
Proof.
  intros Hopen.
  split; [split |].
  - unfold keydown, nextImage. rewrite Hopen. by destruct (_ <? _).
  - unfold keydown, prevImage. rewrite Hopen. by destruct (_ >? _).
  - split; [unfold keydown; rewrite Hopen; by repeat split |].
    split; [intros Hon; unfold keydown; by rewrite Hopen, Hon |].
    intros Hoff Hne.
    assert (Hfirst : keydown KeySpace st = startSlideshow st)
      by (unfold keydown; by rewrite Hopen, Hoff).
    rewrite Hfirst.
    destruct (startSlideshow_fields st Hne) as (Ha & Ho & Hi & _ & Hs & _).
    unfold keydown. rewrite Ho, Ha.
    destruct (stopSlideshow_stops (nextTimerId st) (startSlideshow st) Hs)
      as (Sa & Si & St & _ & Sc & _).
    by rewrite Sc, Hi.
Qed.

(** X13. [startSlideshow] does not look at [slideshowActive]: called twice
    on a page with images it starts two timers and records only the second,
    so [stopSlideshow] clears the second and the first keeps running with
    the slideshow marked inactive. *)
Theorem second_startSlideshow_leaks_timer (st : App) :
  images st <> [] ->
  let s := stopSlideshow (startSlideshow (startSlideshow st)) in
  slideshowActive s = false
  /\ slideshowInterval s = None
  /\ timerRunning (S (nextTimerId st), SlideshowTimer) s = false
  /\ timerRunning (nextTimerId st, SlideshowTimer) s = true.
Proof.
  intros Hne s. subst s.
  destruct (startSlideshow_fields st Hne) as (_ & _ & _ & Hi1 & _ & Ha1 & Hn1).
  assert (Hne1 : images (startSlideshow st) <> []) by by rewrite Hi1.
  destruct (startSlideshow_fields (startSlideshow st) Hne1)
    as (_ & _ & _ & _ & Hs2 & Ha2 & _).
  rewrite Hn1 in Hs2, Ha2. rewrite Ha1 in Ha2.
  destruct (stopSlideshow_stops _ _ Hs2) as (Sa & Si & St & _).
  split; [exact Sa |]. split; [exact Si |]. split; [exact St |].
  apply bool_decide_eq_true_2.
  destruct (stopSlideshow_timers (startSlideshow (startSlideshow st)))
    as (Ha & _). rewrite Ha, Hs2, Ha2.
  apply list_elem_of_In, filter_In. split.
  - apply in_or_app. left. apply in_or_app. right. by left.
  - simpl. destruct (Nat.eqb_spec (nextTimerId st) (S (nextTimerId st))); [lia | done].
Qed.

(** ** Opening the lightbox *)

Lemma findIndexFrom_first {A : Type} (f : A -> bool) (xs : list A) (i : Z) :
  if existsb f xs
  then exists (k : nat) (x : A),
         findIndexFrom f xs i = i + Z.of_nat k
         /\ xs !! k = Some x /\ f x = true
         /\ forall (j : nat) (y : A), (j < k)%nat -> xs !! j = Some y -> f y = false
  else findIndexFrom f xs i = -1.
Proof.
  revert i. induction xs as [| x xs IH]; intros i; simpl; [reflexivity |].
  destruct (f x) eqn:Hfx; simpl.
  - exists 0%nat, x. split; [lia |]. split; [reflexivity |]. split; [exact Hfx |].
    intros j y Hj. lia.
  - specialize (IH (i + 1)). destruct (existsb f xs); [| exact IH].
    destruct IH as (k & y & Hk & Hl & Hy & Hfirst). exists (S k), y.
    split; [lia |]. split; [exact Hl |]. split; [exact Hy |].
    intros [| j] z Hj Hz; simpl in Hz.
    + by injection Hz as <-.
    + apply (Hfirst j z); [lia | exact Hz].
Qed.

(** X14. [openLightbox(image)] shows [image] and sets [currentIndex] to the
    first index of the list whose record has the image's id: that index is
    within bounds, and when ids are unique and the image is in the list,
    [images[currentIndex]] is the image itself. When no record has the id
    (a photo that a reload has dropped), [currentIndex] is -1: [prevImage]
    then does nothing and, on a non-empty list, [nextImage] jumps to the
    first image. *)
Theorem openLightbox_finds_first_record_with_id (image : Image) (st : App) :
  let st' := openLightbox image st in
  let known := existsb (sameId image) (images st) in
  (currentImage st' = Rec image /\ lightboxOpen st' = true
   /\ bodyOverflow st' = OverflowHidden /\ images st' = images st)
  /\ (known = true ->
      0 <= currentIndex st' < len (images st)
      /\ exists found,
           index (images st) (currentIndex st') = Some found
           /\ img_id found = img_id image
           /\ forall (j : nat) (other : Image),
                Z.of_nat j < currentIndex st' -> images st !! j = Some other ->
                img_id other <> img_id image)
  /\ (In image (images st) -> uniqueIds (images st) ->
      imageAt (images st') (currentIndex st') = currentImage st')
  /\ (known = false ->
      currentIndex st' = -1
      /\ prevImage st' = st'
      /\ (images st <> [] ->
          currentIndex (nextImage st') = 0
          /\ currentImage (nextImage st') = imageAt (images st) 0)).
Proof.
  intros st' known. subst st' known.
  assert (Hidx : currentIndex (openLightbox image st)
                 = findIndex (sameId image) (images st)) by reflexivity.
  pose proof (findIndexFrom_first (sameId image) (images st) 0) as Hfirst.
  fold (findIndex (sameId image) (images st)) in Hfirst. rewrite <- Hidx in Hfirst.
  split; [by repeat split |].
  destruct (existsb (sameId image) (images st)) eqn:Hknown.
  - destruct Hfirst as (k & found & Hk & Hl & Hf & Hbefore).
    assert (Hlt : (k < length (images st))%nat) by by apply lookup_lt_Some in Hl.
    assert (Hat : index (images st) (currentIndex (openLightbox image st))
                  = Some found).
    { unfold index. rewrite Hk.
      destruct (Z.ltb_spec (0 + Z.of_nat k) 0); [lia |].
      by rewrite Z.add_0_l, Nat2Z.id. }
    split; [| split; [| discriminate]].
    + intros _. split; [unfold len; lia |]. exists found.
      split; [exact Hat |]. split; [by apply sameId_true |].
      intros j other Hj Hother Heq.
      assert (sameId image other = false) by (apply (Hbefore j); [lia | done]).
      assert (sameId image other = true) by by apply sameId_true.
      congruence.
    + intros Hin Huniq. unfold imageAt.
      change (images (openLightbox image st)) with (images st). rewrite Hat.
      change (currentImage (openLightbox image st)) with (Rec image). f_equal.
      apply sameId_true in Hf.
      apply list_elem_of_In, list_elem_of_lookup in Hin as [m Hm].
      assert (Hkm : k = m).
      { apply (NoDup_lookup (map img_id (images st)) k m (img_id image));
          [exact Huniq | |]; rewrite list_lookup_fmap.
        - by rewrite Hl, <- Hf.
        - by rewrite Hm. }
      subst m. congruence.
  - split; [discriminate |]. split.
    + intros Hin _.
      assert (existsb (sameId image) (images st) = true)
        by (apply existsb_sameId; by apply in_map).
      congruence.
    + intros _. split; [exact Hfirst |].
      split; [apply prevImage_stays; lia |].
      intros Hne.
      assert (Hlen : 1 <= len (images st)).
      { pose proof (len_nonneg (images st)).
        destruct (Z.eq_dec (len (images st)) 0) as [Hz | Hz]; [| lia].
        by apply len_nil_iff in Hz. }
      rewrite nextImage_moves
        by (change (images (openLightbox image st)) with (images st); lia).
      rewrite Hfirst. by split.
Qed.

(** ** Searching *)

Section SearchEdges.

Context (H : Host).

Lemma trimStart_head (s : jsstring) :
  trimStart s = []
  \/ exists c t, trimStart s = c :: t /\ isWhiteSpace c = false.
Proof.
  induction s as [| c s IH]; simpl; [by left |].
  destruct (isWhiteSpace c) eqn:E; [exact IH |]. right. by exists c, s.
Qed.

Lemma trimStart_nil_iff (s : jsstring) :
  trimStart s = [] <-> forallb isWhiteSpace s = true.
Proof.
  induction s as [| c s IH]; simpl; [done |].
  destruct (isWhiteSpace c); simpl; [exact IH | done].
Qed.

Lemma forallb_rev {A : Type} (f : A -> bool) (l : list A) :
  forallb f (rev l) = forallb f l.
Proof.
  apply eq_true_iff_eq. rewrite !forallb_forall.
  split; intros Hall x Hx; apply Hall; by apply in_rev in Hx || apply -> in_rev.
Qed.

(** A query is empty after trimming exactly when it is white space only. *)
Lemma trim_nil_iff (q : jsstring) :
  trim q = [] <-> forallb isWhiteSpace q = true.
Proof.
  unfold trim. rewrite <- (trimStart_nil_iff q).
  split.
  - intros Hnil. apply (f_equal (@rev N)) in Hnil. rewrite rev_involutive in Hnil.
    simpl in Hnil. apply trimStart_nil_iff in Hnil. rewrite forallb_rev in Hnil.
    destruct (trimStart_head q) as [Hq | (c & t & Hq & Hc)]; [exact Hq |].
    rewrite Hq in Hnil. simpl in Hnil. by rewrite Hc in Hnil.
  - intros ->. reflexivity.
Qed.

(** X15. A search query of white space only does not filter: the filtered
    list is the whole image list. Every other query filters with the query
    as typed, its surrounding white space included. *)
Theorem whitespace_query_does_not_filter (st : App) :
  (forallb isWhiteSpace (searchQuery st) = true ->
   filteredImages H st = images st)
  /\ (forallb isWhiteSpace (searchQuery st) = false ->
      filteredImages H st
      = List.filter (matchesQuery H (searchQuery st)) (images st)).
Proof.
  split; intros Hws.
  - apply filteredImages_no_query. by apply trim_nil_iff.
  - unfold filteredImages.
    destruct (trim (searchQuery st)) eqn:E; [| reflexivity].
    apply trim_nil_iff in E. congruence.
Qed.

(** X16. A record without a caption (absent or empty) whose timestamp is
    missing, [null], 0 or empty has the empty string as formatted date and
    matches no query that filters: every search hides it. *)
Theorem image_without_caption_and_date_is_hidden (q : jsstring) (img : Image)
    (st : App) :
  trim q <> [] ->
  caption img = None \/ caption img = Some [] ->
  falsy (timestamp img) = true ->
  formatDate H (timestamp img) = []
  /\ matchesQuery H q img = false
  /\ (searchQuery st = q -> ~ In img (filteredImages H st)).
Proof.
  intros Hq Hcap Hts.
  assert (Hfmt : formatDate H (timestamp img) = [])
    by (unfold formatDate; by rewrite Hts).
  assert (Hlow : toLowerCase H q <> []).
  { intros E. apply (toLowerCase_nonempty H) in E. subst q. by apply Hq. }
  assert (Hm : matchesQuery H q img = false).
  { unfold matchesQuery. rewrite Hfmt, (toLowerCase_nil H).
    rewrite (includes_nil_l _ Hlow).
    by destruct Hcap as [-> | ->]. }
  split; [exact Hfmt |]. split; [exact Hm |].
  intros <- Hin. unfold filteredImages in Hin.
  destruct (trim (searchQuery st)); [by apply Hq |]. simpl in Hin.
  apply filter_In in Hin as [_ Hin]. congruence.
Qed.

Lemma updatePagination_overwrites (T : Z) (D : list Image) (st : App) :
  updatePagination H (set_displayedImages D (set_totalPages T st))
  = updatePagination H st.
Proof.
  unfold updatePagination. destruct st.
  cbn -[filteredImages Math_ceil_div slice]. by destruct (_ >? _).
Qed.

(** X17. [searchPhotos] always lands on page 1 and displays the first 24
    matches; [clearSearch] empties the query and displays the first 24 of
    all images. [toggleViewMode] flips the view mode and also goes back to
    page 1, so toggling twice restores the view mode but not the page: it
    is the same as [searchPhotos]. *)
Theorem search_and_view_toggle_reset_to_page_one (st : App) :
  (currentPage (searchPhotos H st) = 1
   /\ displayedImages (searchPhotos H st) = take 24 (filteredImages H st))
  /\ (searchQuery (clearSearch H st) = []
      /\ currentPage (clearSearch H st) = 1
      /\ displayedImages (clearSearch H st) = take 24 (images st)
      /\ totalPages (clearSearch H st) = Math_ceil_div (len (images st)) 24)
  /\ (viewMode (toggleViewMode H st) <> viewMode st
      /\ currentPage (toggleViewMode H st) = 1)
  /\ toggleViewMode H (toggleViewMode H st) = searchPhotos H st.
Proof.
  assert (Hone : forall s, currentPage s = 1 ->
            currentPage (updatePagination H s) = 1
            /\ displayedImages (updatePagination H s)
               = take 24 (filteredImages H s)).
  { intros s Hs.
    assert (Hc : currentPage (updatePagination H s) = 1).
    { rewrite updatePagination_currentPage, Hs. by destruct (1 >? _). }
    split; [exact Hc |]. rewrite updatePagination_displayedImages, Hc.
    change ((1 - 1) * photosPerPage) with 0.
    change (0 + photosPerPage) with 24. by rewrite slice_first_page. }
  split; [apply (Hone (set_currentPage 1 st) eq_refl) |].
  split.
  { unfold clearSearch, searchPhotos.
    destruct (Hone (set_currentPage 1 (set_searchQuery [] st)) eq_refl) as [Hc Hd].
    split; [by rewrite updatePagination_searchQuery |].
    split; [exact Hc |]. split; [exact Hd |].
    by rewrite updatePagination_totalPages. }
  split.
  { unfold toggleViewMode. split.
    - assert (Hv : forall s, viewMode (updatePagination H s) = viewMode s).
      { intros s. unfold updatePagination. simpl. by destruct (_ >? _). }
      rewrite Hv. simpl. by destruct (viewMode st).
    - apply (Hone (set_currentPage 1 _) eq_refl). }
  unfold toggleViewMode, searchPhotos.
  rewrite (updatePagination_paged H (set_currentPage 1 (set_viewMode _ st))).
  generalize (totalPages
                (updatePagination H
                   (set_currentPage 1
                      (set_viewMode
                         match viewMode st with Grouped => Grid | Grid => Grouped end
                         st)))) as T.
  generalize (currentPage
                (updatePagination H
                   (set_currentPage 1
                      (set_viewMode
                         match viewMode st with Grouped => Grid | Grid => Grouped end
                         st)))) as C.
  generalize (displayedImages
                (updatePagination H
                   (set_currentPage 1
                      (set_viewMode
                         match viewMode st with Grouped => Grid | Grid => Grouped end
                         st)))) as D.
  intros D C T.
  rewrite <- (updatePagination_overwrites T D (set_currentPage 1 st)).
  f_equal. destruct st as [? ? ? ? ? ? ? ? ? ? ? ? ? ? vm ? ? ? ?].
  by destruct vm.
Qed.

End SearchEdges.

(** ** The further properties on concrete pages *)

(** X3 on page 2 of an album of 49. *)
Lemma reachable_page_is_part_of_the_list_witness :
  let st := goToPage UtcHost.host 2 (loaded (album 49)) in
  reachable UtcHost.host st
  /\ length (displayedImages st) = 24%nat
  /\ currentPage st = 2
  /\ sublist (displayedImages st) (images st).
Proof.
  intros st.
  assert (Hr : reachable UtcHost.host st).
  { eapply reachable_step; [| apply step_goToPage].
    eapply reachable_step; [apply reachable_initial | apply step_loadImages]. }
  destruct (reachable_page_is_part_of_the_list UtcHost.host st Hr) as (Hs & _).
  split; [exact Hr |]. split; [vm_compute; reflexivity |].
  split; [vm_compute; reflexivity | exact Hs].
Defined.

(** X4 on the first of three pages. *)
Lemma nextPage_prevPage_round_trip_witness :
  let st := updatePagination UtcHost.host (loaded (album 49)) in
  1 <= currentPage st < totalPages st
  /\ currentPage (nextPage UtcHost.host st) = 2
  /\ prevPage UtcHost.host (nextPage UtcHost.host st) = st.
Proof.
  intros st.
  assert (Hc : 1 <= currentPage st < totalPages st)
    by (vm_compute; split; [discriminate | reflexivity]).
  destruct (nextPage_prevPage_round_trip UtcHost.host (loaded (album 49)))
    as (_ & _ & Hmove & _).
  destruct (Hmove Hc) as [Hn Hback].
  split; [exact Hc |]. split; [| exact Hback].
  fold st in Hn. rewrite Hn. vm_compute. reflexivity.
Defined.

(** X9: with photo 3 selected, toggling photo 2 leaves photo 3 selected. *)
Lemma togglePhotoSelection_touches_one_id_witness :
  let p := photo 2 "Gaurav" (2 * UtcHost.msPerDay) in
  let q := photo 3 "Gaurav" (3 * UtcHost.msPerDay) in
  let st := togglePhotoSelection q (loaded (album 3)) in
  img_id q <> img_id p
  /\ isPhotoSelected q (togglePhotoSelection p st) = true
  /\ selectedPhotos (togglePhotoSelection p st) = [q; p].
Proof.
  intros p q st.
  assert (Hne : img_id q <> img_id p) by discriminate.
  destruct (togglePhotoSelection_touches_one_id p q st Hne) as (Hq & _ & Hadd).
  split; [exact Hne |]. split.
  - rewrite Hq. vm_compute. reflexivity.
  - rewrite Hadd; vm_compute; reflexivity.
Defined.

(** X10 on a freshly loaded album of three. *)
Lemma keydown_select_all_then_escape_witness :
  let st := loaded (album 3) in
  let s1 := keydown KeySelectAll st in
  lightboxOpen st = false
  /\ selectionMode s1 = true
  /\ length (selectedPhotos s1) = 3%nat
  /\ selectedPhotos (keydown KeyEscape s1) = [].
Proof.
  intros st s1.
  assert (Hclosed : lightboxOpen st = false) by reflexivity.
  destruct (keydown_select_all_then_escape st Hclosed) as (Hm & _ & _ & [_ He] & _).
  split; [exact Hclosed |]. split; [exact Hm |].
  split; [vm_compute; reflexivity | exact He].
Defined.

(** X11: stopping a slideshow leaves the auto-refresh timer, timer 1,
    running. *)
Lemma autoRefresh_timer_is_never_cleared_witness :
  let st := startSlideshow (setupAutoRefresh (loaded (album 3))) in
  reachable UtcHost.host st
  /\ step UtcHost.host st (stopSlideshow st)
  /\ timerRunning (1%nat, AutoRefreshTimer) st = true
  /\ timerRunning (1%nat, AutoRefreshTimer) (stopSlideshow st) = true.
Proof.
  intros st.
  assert (Hr : reachable UtcHost.host st).
  { eapply reachable_step; [| apply step_startSlideshow].
    eapply reachable_step; [| apply step_setupAutoRefresh].
    eapply reachable_step; [apply reachable_initial | apply step_loadImages]. }
  assert (Hrun : timerRunning (1%nat, AutoRefreshTimer) st = true)
    by (vm_compute; reflexivity).
  destruct (autoRefresh_timer_is_never_cleared UtcHost.host st (stopSlideshow st)
              1%nat Hr (step_stopSlideshow UtcHost.host st)) as [Hkeep _].
  split; [exact Hr |]. split; [apply step_stopSlideshow |].
  split; [exact Hrun | exact (Hkeep Hrun)].
Defined.

(** X12 with the lightbox open on the middle photo of three. *)
Lemma keydown_in_lightbox_witness :
  let st := openLightbox (photo 2 "Gaurav" (2 * UtcHost.msPerDay))
              (loaded (album 3)) in
  lightboxOpen st = true
  /\ currentIndex (keydown KeyArrowRight st) = 2
  /\ lightboxOpen (keydown KeyEscape st) = false
  /\ slideshowActive (keydown KeySpace (keydown KeySpace st)) = false.
Proof.
  intros st.
  assert (Hopen : lightboxOpen st = true) by reflexivity.
  destruct (keydown_in_lightbox st Hopen) as ([Hr _] & Hesc & _ & Hspace).
  cbv zeta in Hesc, Hspace.
  split; [exact Hopen |]. split; [rewrite Hr; vm_compute; reflexivity |].
  split; [apply Hesc |].
  apply Hspace; [reflexivity | vm_compute; discriminate].
Defined.

(** X13 on a freshly loaded album: timer 1 outlives the slideshow. *)
Lemma second_startSlideshow_leaks_timer_witness :
  let st := loaded (album 3) in
  let s := stopSlideshow (startSlideshow (startSlideshow st)) in
  images st <> []
  /\ slideshowActive s = false
  /\ timerRunning (1%nat, SlideshowTimer) s = true
  /\ activeIntervals s = [(1%nat, SlideshowTimer)].
Proof.
  intros st s.
  assert (Hne : images st <> []) by (vm_compute; discriminate).
  destruct (second_startSlideshow_leaks_timer st Hne) as (Ha & _ & _ & Hleak).
  split; [exact Hne |]. split; [exact Ha |]. split; [exact Hleak |].
  vm_compute. reflexivity.
Defined.

(** X16: the bare record is loaded with the family and hidden by the query
    a, which keeps the one photo whose caption contains it. *)
Lemma image_without_caption_and_date_is_hidden_witness :
  let st := set_searchQuery (str "a") (loaded (bare :: family)) in
  (trim (str "a") <> [] /\ caption bare = None /\ falsy (timestamp bare) = true)
  /\ In bare (images st)
  /\ ~ In bare (filteredImages UtcHost.host st)
  /\ length (filteredImages UtcHost.host st) = 1%nat.
Proof.
  intros st.
  assert (Hq : trim (str "a") <> []) by (vm_compute; discriminate).
  destruct (image_without_caption_and_date_is_hidden UtcHost.host (str "a") bare st
              Hq (or_introl eq_refl) eq_refl) as (_ & _ & Hhid).
  split; [by repeat split |].
  split; [vm_compute; tauto |].
  split; [by apply Hhid | vm_compute; reflexivity].
Defined.
